(** * CAN bus fault confinement under the Parrot spoofing experiments

    A shallow embedding of [parrot_project/utils.py] and of the two
    event-driven simulations [experiment_1/simulate.py] and
    [experiment_3/simulate.py], followed by the properties of the
    node state machine, of the event scheduler and of the two scenarios.

    Conventions of the embedding.
    - Python integers are [Z].
    - A [CanNode] is a record with the three attributes the class stores
      ([name], [TEC], [state]); methods take the node and return the
      mutated node.
    - The bus object is a record threaded through every method (explicit
      state passing).  The bound methods pushed on the event queue are
      represented by an enumeration of their names, one per scenario, and
      dispatched by [call].
    - [heapq] is modelled by what it implements, a priority queue over
      Python tuples: [heappush] adds an entry, [heappop] removes and
      returns a least entry.  Entries are compared as Python compares
      tuples, see [tuple_lt].
    - Console and file logging and the plots only observe the state; they
      are left out.  [record_history] is kept: its ["time"] list is the
      sequence of clock values taken when events are popped. *)

From Stdlib Require Import String ZArith List Bool Lia Sorted Permutation.
Import ListNotations.
Local Open Scope Z_scope.

(* ===================================================================== *)
(** * utils.py *)
(* ===================================================================== *)

Module Utils.

(** Gaps in microseconds. *)
Definition GAP_US : Z := 31.
Definition MAX_ROUNDS : Z := 3.
Definition ASSISTANT_GAP_US : Z := 200.
Definition ATTACKER_PERIOD_US : Z := 1000000.

(** ** Error states *)

Inductive ErrorStates : Type :=
| ACTIVE
| ERROR_PASSIVE
| BUS_OFF.

Definition ErrorStates_eqb (s1 s2 : ErrorStates) : bool :=
  match s1, s2 with
  | ACTIVE, ACTIVE => true
  | ERROR_PASSIVE, ERROR_PASSIVE => true
  | BUS_OFF, BUS_OFF => true
  | _, _ => false
  end.

(** ** CanNode *)

Record CanNode : Type := mkCanNode {
  name : string;
  TEC : Z;
  state : ErrorStates
}.

(** [CanNode.__init__] *)
Definition CanNode_init (nm : string) : CanNode :=
  {| name := nm; TEC := 0; state := ACTIVE |}.

(** [CanNode._update_state] *)
Definition _update_state (self : CanNode) : CanNode :=
  if TEC self >=? 256 then
    {| name := name self; TEC := TEC self; state := BUS_OFF |}
  else if TEC self >=? 128 then
    {| name := name self; TEC := TEC self; state := ERROR_PASSIVE |}
  else
    {| name := name self; TEC := TEC self; state := ACTIVE |}.

(** [CanNode.collide] *)
Definition collide (self : CanNode) : CanNode :=
  let self := {| name := name self; TEC := TEC self + 8; state := state self |} in
  _update_state self.

(** [CanNode.succeed] *)
Definition succeed (self : CanNode) : CanNode :=
  let self :=
    if TEC self >? 0 then
      {| name := name self; TEC := TEC self - 1; state := state self |}
    else self in
  _update_state self.

(** ** The event queue

    An entry is the tuple [(event_time, order, callback)]. *)

Section Scheduler.

Context {CB : Type}.

Definition Event : Type := (Z * Z * CB)%type.

Definition fire (e : Event) : Z := fst (fst e).
Definition order (e : Event) : Z := snd (fst e).
Definition callback (e : Event) : CB := snd e.

(** Python's [<] on two such tuples looks for the first component where
    they differ.  It answers from the times or from the orders when one of
    these differs; when both agree it goes on to the callbacks, which is
    the outcome [None] here. *)
Definition tuple_lt (e1 e2 : Event) : option bool :=
  if fire e1 =? fire e2 then
    if order e1 =? order e2 then None
    else Some (order e1 <? order e2)
  else Some (fire e1 <? fire e2).

(** The order on the keys [(event_time, order)]. *)
Definition event_ltb (e1 e2 : Event) : bool :=
  (fire e1 <? fire e2) || ((fire e1 =? fire e2) && (order e1 <? order e2)).

(** [heapq.heappush] *)
Definition heappush (heap : list Event) (item : Event) : list Event :=
  heap ++ [item].

(** [heapq.heappop]: the least entry and the remaining ones; [None] on an
    empty heap (where Python raises [IndexError]). *)
Fixpoint heappop (heap : list Event) : option (Event * list Event) :=
  match heap with
  | [] => None
  | e :: heap' =>
      match heappop heap' with
      | None => Some (e, [])
      | Some (m, rest) =>
          if event_ltb m e then Some (m, e :: rest) else Some (e, heap')
      end
  end.

(** ** CanBusBase *)

Record History : Type := mkHistory {
  hist_time : list Z;
  hist_attacker : list Z;
  hist_defender : list Z
}.

Record CanBusBase : Type := mkCanBusBase {
  time_us : Z;
  events : list Event;
  counter : Z;
  rounds : Z;
  attacker : CanNode;
  defender : CanNode;
  history : History
}.

(** [CanBusBase.__init__] *)
Definition CanBusBase_init : CanBusBase :=
  {| time_us := 0;
     events := [];
     counter := 0;
     rounds := 0;
     attacker := CanNode_init "[E] ATTACKER";
     defender := CanNode_init "[A] DEFENDER";
     history := {| hist_time := []; hist_attacker := []; hist_defender := [] |} |}.

Definition set_time_us (t : Z) (self : CanBusBase) : CanBusBase :=
  {| time_us := t; events := events self; counter := counter self;
     rounds := rounds self; attacker := attacker self;
     defender := defender self; history := history self |}.

Definition set_events (evs : list Event) (self : CanBusBase) : CanBusBase :=
  {| time_us := time_us self; events := evs; counter := counter self;
     rounds := rounds self; attacker := attacker self;
     defender := defender self; history := history self |}.

Definition set_rounds (r : Z) (self : CanBusBase) : CanBusBase :=
  {| time_us := time_us self; events := events self; counter := counter self;
     rounds := r; attacker := attacker self;
     defender := defender self; history := history self |}.

Definition set_attacker (n : CanNode) (self : CanBusBase) : CanBusBase :=
  {| time_us := time_us self; events := events self; counter := counter self;
     rounds := rounds self; attacker := n;
     defender := defender self; history := history self |}.

Definition set_defender (n : CanNode) (self : CanBusBase) : CanBusBase :=
  {| time_us := time_us self; events := events self; counter := counter self;
     rounds := rounds self; attacker := attacker self;
     defender := n; history := history self |}.

(** [CanBusBase.schedule] *)
Definition schedule (delay_us : Z) (cb : CB) (self : CanBusBase) : CanBusBase :=
  let event_time := time_us self + delay_us in
  {| time_us := time_us self;
     events := heappush (events self) (event_time, counter self, cb);
     counter := counter self + 1;
     rounds := rounds self; attacker := attacker self;
     defender := defender self; history := history self |}.

(** [CanBusBase.record_history] *)
Definition record_history (self : CanBusBase) : CanBusBase :=
  {| time_us := time_us self; events := events self; counter := counter self;
     rounds := rounds self; attacker := attacker self; defender := defender self;
     history :=
       {| hist_time := hist_time (history self) ++ [time_us self];
          hist_attacker := hist_attacker (history self) ++ [TEC (attacker self)];
          hist_defender := hist_defender (history self) ++ [TEC (defender self)] |} |}.

(** The two statements every run loop starts its body with:
    [t, _, callback = heapq.heappop(self.events); self.time_us = t]. *)
Definition pop_event (self : CanBusBase) : option (Event * CanBusBase) :=
  match heappop (events self) with
  | None => None
  | Some (e, rest) => Some (e, set_time_us (fire e) (set_events rest self))
  end.

End Scheduler.

Arguments Event : clear implicits.
Arguments CanBusBase : clear implicits.

End Utils.

Import Utils.

(* ===================================================================== *)
(** * experiment_1/simulate.py *)
(* ===================================================================== *)

Module Experiment1.

(** The bound methods this scenario schedules. *)
Inductive Callback : Type :=
| StartRound
| HandleCollision
| RecoverDefender
| RecoverAttacker.

Definition CanBus : Type := CanBusBase Callback.

(** [CanBus.__init__] *)
Definition CanBus_init : CanBus := set_rounds 0 CanBusBase_init.

Section Rounds.

(** The round limit; the module constant [MAX_ROUNDS] in the source. *)
Variable max_rounds : Z.

(** [CanBus.__start_round] *)
Definition __start_round (self : CanBus) : CanBus :=
  let self := set_rounds (rounds self + 1) self in
  if rounds self >? max_rounds then self
  else schedule 0 HandleCollision self.

(** [CanBus.__handle_collision] *)
Definition __handle_collision (self : CanBus) : CanBus :=
  let self := set_attacker (collide (attacker self)) self in
  let self := set_defender (collide (defender self)) self in
  if ErrorStates_eqb (state (attacker self)) ACTIVE then
    schedule GAP_US HandleCollision self
  else
    schedule GAP_US RecoverDefender self.

(** [CanBus.__recover_defender] *)
Definition __recover_defender (self : CanBus) : CanBus :=
  let self := set_defender (succeed (defender self)) self in
  if negb (ErrorStates_eqb (state (defender self)) ACTIVE) then
    schedule GAP_US RecoverDefender self
  else
    schedule GAP_US RecoverAttacker self.

(** [CanBus.__recover_attacker] *)
Definition __recover_attacker (self : CanBus) : CanBus :=
  let self := set_attacker (succeed (attacker self)) self in
  if negb (ErrorStates_eqb (state (attacker self)) ACTIVE) then
    schedule GAP_US RecoverAttacker self
  else
    schedule GAP_US StartRound self.

Definition call (cb : Callback) (self : CanBus) : CanBus :=
  match cb with
  | StartRound => __start_round self
  | HandleCollision => __handle_collision self
  | RecoverDefender => __recover_defender self
  | RecoverAttacker => __recover_attacker self
  end.

(** One iteration of [while self.events: ...] in [CanBus.execute];
    [None] when the loop condition is false. *)
Definition step (self : CanBus) : option CanBus :=
  match pop_event self with
  | None => None
  | Some (e, self) => Some (call (callback e) (record_history self))
  end.

(** The state after at most [n] iterations of the loop. *)
Fixpoint iterate (n : nat) (self : CanBus) : CanBus :=
  match n with
  | O => self
  | S n' =>
      match step self with
      | None => self
      | Some self' => iterate n' self'
      end
  end.

(** The callbacks run by these iterations, in the order they ran. *)
Fixpoint popped (n : nat) (self : CanBus) : list Callback :=
  match n with
  | O => []
  | S n' =>
      match pop_event self, step self with
      | Some (e, _), Some self' => callback e :: popped n' self'
      | _, _ => []
      end
  end.

(** The bus when the loop is entered: [self.schedule(0, self.__start_round)]. *)
Definition execute_start : CanBus := schedule 0 StartRound CanBus_init.

(** [CanBus.execute] with [fuel] iterations at most: the final bus when the
    loop has ended by then. *)
Definition execute (fuel : nat) : option CanBus :=
  let self := iterate fuel execute_start in
  match events self with
  | [] => Some self
  | _ :: _ => None
  end.

End Rounds.

End Experiment1.

(* ===================================================================== *)
(** * experiment_3/simulate.py *)
(* ===================================================================== *)

Module Experiment3.

(** The bound methods this scenario schedules. *)
Inductive Callback : Type :=
| SendAttack
| HandleCollision
| RecoverDefender
| CollidePassive
| AssistantSend.

(** The subclass adds the assistant node and its history list. *)
Record CanBus : Type := mkCanBus {
  base : CanBusBase Callback;
  assistant : CanNode;
  hist_assistant : list Z
}.

(** [CanBus.__init__] *)
Definition CanBus_init : CanBus :=
  {| base := CanBusBase_init;
     assistant := CanNode_init "[C] ASSISTANT";
     hist_assistant := [] |}.

Definition on_base (f : CanBusBase Callback -> CanBusBase Callback)
    (self : CanBus) : CanBus :=
  {| base := f (base self);
     assistant := assistant self;
     hist_assistant := hist_assistant self |}.

(** [CanBus.__record_history] *)
Definition __record_history (self : CanBus) : CanBus :=
  let self := on_base record_history self in
  {| base := base self;
     assistant := assistant self;
     hist_assistant := hist_assistant self ++ [TEC (assistant self)] |}.

(** [CanBus.__send_attack] *)
Definition __send_attack (self : CanBus) : CanBus :=
  let self := on_base (schedule 0 HandleCollision) self in
  if ErrorStates_eqb (state (attacker (base self))) ACTIVE then
    on_base (schedule ATTACKER_PERIOD_US SendAttack) self
  else self.

(** [CanBus.__handle_collision] *)
Definition __handle_collision (self : CanBus) : CanBus :=
  let self := on_base (fun b => set_attacker (collide (attacker b)) b) self in
  let self := on_base (fun b => set_defender (collide (defender b)) b) self in
  if ErrorStates_eqb (state (attacker (base self))) ACTIVE then
    on_base (schedule GAP_US HandleCollision) self
  else
    on_base (schedule GAP_US RecoverDefender) self.

(** [CanBus.__recover_defender] *)
Definition __recover_defender (self : CanBus) : CanBus :=
  let self := on_base (fun b => set_defender (succeed (defender b)) b) self in
  if negb (ErrorStates_eqb (state (defender (base self))) ACTIVE) then
    on_base (schedule GAP_US RecoverDefender) self
  else
    on_base (schedule 0 CollidePassive) self.

(** [CanBus.__collide_passive] *)
Definition __collide_passive (self : CanBus) : CanBus :=
  let self := on_base (fun b => set_attacker (collide (attacker b)) b) self in
  if negb (ErrorStates_eqb (state (attacker (base self))) BUS_OFF) then
    let next_gap := Z.min ASSISTANT_GAP_US GAP_US in
    on_base (schedule next_gap CollidePassive) self
  else self.

(** [CanBus.__assistant_send] *)
Definition __assistant_send (self : CanBus) : CanBus :=
  if negb (ErrorStates_eqb (state (attacker (base self))) BUS_OFF) then
    on_base (schedule ASSISTANT_GAP_US AssistantSend) self
  else self.

Definition call (cb : Callback) (self : CanBus) : CanBus :=
  match cb with
  | SendAttack => __send_attack self
  | HandleCollision => __handle_collision self
  | RecoverDefender => __recover_defender self
  | CollidePassive => __collide_passive self
  | AssistantSend => __assistant_send self
  end.

(** The loop condition of [CanBus.execute]:
    [self.events and self.attacker.state != ErrorStates.BUS_OFF]. *)
Definition running (self : CanBus) : bool :=
  match events (base self) with
  | [] => false
  | _ :: _ => negb (ErrorStates_eqb (state (attacker (base self))) BUS_OFF)
  end.

(** One iteration of the loop; [None] when the loop condition is false. *)
Definition step (self : CanBus) : option CanBus :=
  if running self then
    match pop_event (base self) with
    | None => None
    | Some (e, b) =>
        let self := {| base := b; assistant := assistant self;
                       hist_assistant := hist_assistant self |} in
        Some (call (callback e) (__record_history self))
    end
  else None.

(** The state after at most [n] iterations of the loop. *)
Fixpoint iterate (n : nat) (self : CanBus) : CanBus :=
  match n with
  | O => self
  | S n' =>
      match step self with
      | None => self
      | Some self' => iterate n' self'
      end
  end.

(** The callbacks run by these iterations, in the order they ran. *)
Fixpoint popped (n : nat) (self : CanBus) : list Callback :=
  match n with
  | O => []
  | S n' =>
      match pop_event (base self), step self with
      | Some (e, _), Some self' => callback e :: popped n' self'
      | _, _ => []
      end
  end.

(** The bus when the loop is entered: the attacker's spoof and the
    assistant's message are both scheduled at delay 0, in this order. *)
Definition execute_start : CanBus :=
  on_base (schedule 0 AssistantSend)
    (on_base (schedule 0 SendAttack) CanBus_init).

(** [CanBus.execute] with [fuel] iterations at most: the final bus when the
    loop has ended by then. *)
Definition execute (fuel : nat) : option CanBus :=
  let self := iterate fuel execute_start in
  if running self then None else Some self.

End Experiment3.

(* ===================================================================== *)
(** * Vocabulary of the properties *)
(* ===================================================================== *)

(** ** Sequences of node operations *)

Inductive NodeOp : Type :=
| OpCollide
| OpSucceed.

Definition apply_op (n : CanNode) (op : NodeOp) : CanNode :=
  match op with
  | OpCollide => collide n
  | OpSucceed => succeed n
  end.

Definition run_ops (ops : list NodeOp) (n : CanNode) : CanNode :=
  fold_left apply_op ops n.

(** The threshold table: the state that belongs to a counter value. *)
Definition in_table (n : CanNode) : Prop :=
  (256 <= TEC n <-> state n = BUS_OFF) /\
  (128 <= TEC n < 256 <-> state n = ERROR_PASSIVE) /\
  (TEC n < 128 <-> state n = ACTIVE).

(** ** Histories of the scheduler

    [reach Sc P b]: the bus [b] is obtained from a fresh bus by calls of
    [schedule], by pops of the run loop and by updates of the attributes
    the scheduler does not own; [Sc] lists the entries pushed so far in the
    order of the calls of [schedule], [P] the entries popped so far in the
    order they were popped. *)

Section Histories.

Context {CB : Type}.

Definition same_queue (b b' : CanBusBase CB) : Prop :=
  time_us b' = time_us b /\ events b' = events b /\ counter b' = counter b.

Inductive reach : list (Event CB) -> list (Event CB) -> CanBusBase CB -> Prop :=
| reach_init :
    reach [] [] CanBusBase_init
| reach_schedule Sc P b delay_us cb :
    reach Sc P b ->
    reach (Sc ++ [(time_us b + delay_us, counter b, cb)]) P (schedule delay_us cb b)
| reach_pop Sc P b e b' :
    reach Sc P b ->
    pop_event b = Some (e, b') ->
    reach Sc (P ++ [e]) b'
| reach_frame Sc P b b' :
    reach Sc P b ->
    same_queue b b' ->
    reach Sc P b'.

(** [b] is the bus of some history in which the callbacks of the entries
    popped so far are [tr], in this order. *)
Definition history_of (tr : list CB) (b : CanBusBase CB) : Prop :=
  exists Sc P, reach Sc P b /\ map callback P = tr.

(** The entry pushed by the [i]-th call of [schedule] (counting from 0)
    carries the sequence number [i]. *)
Definition numbered (Sc : list (Event CB)) : Prop :=
  forall i e, nth_error Sc i = Some e -> order e = Z.of_nat i.

(** [x] occurs in [l] at some position before an occurrence of [y]. *)
Definition precedes (x y : Event CB) (l : list (Event CB)) : Prop :=
  exists l1 l2 l3, l = l1 ++ x :: l2 ++ y :: l3.

(** What a call of [schedule] that is refused before it does anything would
    leave behind: the queue and the insertion counter as they were. *)
Definition schedule_rejects (delay_us : Z) (cb : CB) (b : CanBusBase CB) : Prop :=
  events (schedule delay_us cb b) = events b /\
  counter (schedule delay_us cb b) = counter b.

(** The clock never runs ahead of a pending entry nor behind a recorded
    instant, and the recorded instants are in non-decreasing order. *)
Definition clock_inv (b : CanBusBase CB) : Prop :=
  Forall (fun e => time_us b <= fire e) (events b) /\
  Forall (fun t => t <= time_us b) (hist_time (history b)) /\
  Sorted Z.le (hist_time (history b)).

End Histories.

(** ** Runs of the two-node scenario *)

Module Experiment1Runs.
Import Experiment1.

(** The callbacks of the first round, which starts from counters 0: the
    round start, 16 collisions, one recovery of each node. *)
Definition first_round : list Callback :=
  StartRound :: repeat HandleCollision 16 ++ [RecoverDefender; RecoverAttacker].

(** The callbacks of every later round, which starts from counters 127:
    the round start, one collision, 8 recoveries of each node. *)
Definition later_round : list Callback :=
  StartRound :: HandleCollision ::
  repeat RecoverDefender 8 ++ repeat RecoverAttacker 8.

(** [runs max_rounds b tr b']: from [b], the run loop pops and runs the
    callbacks [tr], in this order, and is then at [b']. *)
Inductive runs (max_rounds : Z) : CanBus -> list Callback -> CanBus -> Prop :=
| runs_nil b :
    runs max_rounds b [] b
| runs_cons b e b1 tr b' :
    pop_event b = Some (e, b1) ->
    runs max_rounds (call max_rounds (callback e) (record_history b1)) tr b' ->
    runs max_rounds b (callback e :: tr) b'.

(** The only pending entry of [b] is a call of [cb]; the round counter is
    [r] and the error counters of attacker and defender are [a] and [d]. *)
Definition pending (b : CanBus) (cb : Callback) (r a d : Z) : Prop :=
  (exists t c, events b = [(t, c, cb)]) /\
  rounds b = r /\
  TEC (attacker b) = a /\
  TEC (defender b) = d /\
  in_table (attacker b) /\
  in_table (defender b).

(** The counters that go with each pending callback. *)
Definition phase_ok (cb : Callback) (a d : Z) : Prop :=
  match cb with
  | StartRound => a = d /\ a <= 127
  | HandleCollision => a = d /\ a <= 127
  | RecoverDefender => 128 <= a <= 135 /\ 128 <= d <= 135
  | RecoverAttacker => 128 <= a <= 135 /\ d = 127
  end.

Definition round_inv (b : CanBus) : Prop :=
  in_table (attacker b) /\
  in_table (defender b) /\
  match events b with
  | [] => TEC (attacker b) <= 127 /\ TEC (defender b) <= 127
  | [e] => phase_ok (callback e) (TEC (attacker b)) (TEC (defender b))
  | _ :: _ :: _ => False
  end.

End Experiment1Runs.

(** ** Further vocabulary *)

(** How far a state is from normal operation. *)
Definition severity (s : ErrorStates) : Z :=
  match s with
  | ACTIVE => 0
  | ERROR_PASSIVE => 1
  | BUS_OFF => 2
  end.

Section ForwardHistories.

Context {CB : Type}.

(** The strict order on the keys [(event_time, order)]. *)
Definition key_lt (x y : Event CB) : Prop :=
  fire x < fire y \/ (fire x = fire y /\ order x < order y).

(** The histories in which [schedule] is only called with delays that are
    not negative. *)
Inductive reach_forward :
    list (Event CB) -> list (Event CB) -> CanBusBase CB -> Prop :=
| forward_init :
    reach_forward [] [] CanBusBase_init
| forward_schedule Sc P b delay_us cb :
    reach_forward Sc P b ->
    0 <= delay_us ->
    reach_forward (Sc ++ [(time_us b + delay_us, counter b, cb)]) P
      (schedule delay_us cb b)
| forward_pop Sc P b e b' :
    reach_forward Sc P b ->
    pop_event b = Some (e, b') ->
    reach_forward Sc (P ++ [e]) b'
| forward_frame Sc P b b' :
    reach_forward Sc P b ->
    same_queue b b' ->
    reach_forward Sc P b'.

(** [b] is the bus of a forward history in which the entries popped so
    far are [P], in this order, and the clock values recorded in the
    history are their fire times. *)
Definition forward_history_of (P : list (Event CB)) (b : CanBusBase CB) : Prop :=
  exists Sc,
    reach_forward Sc P b /\
    map fire P = hist_time (history b).

End ForwardHistories.

(** The delay with which each callback of the two-node scenario schedules
    its follow-up. *)
Definition follow_up_delay (cb : Experiment1.Callback) : Z :=
  match cb with
  | Experiment1.StartRound => 0
  | _ => GAP_US
  end.

Definition sum_delays (tr : list Experiment1.Callback) : Z :=
  fold_right (fun cb acc => follow_up_delay cb + acc) 0 tr.

Definition is_round_start (cb : Experiment1.Callback) : bool :=
  match cb with
  | Experiment1.StartRound => true
  | _ => false
  end.

(** The entries popped by the first [n] iterations of the run loop of the
    two-node scenario, in the order they were popped. *)
Fixpoint popped_entries1 (max_rounds : Z) (n : nat) (self : Experiment1.CanBus)
    : list (Event Experiment1.Callback) :=
  match n with
  | O => []
  | S n' =>
      match pop_event self, Experiment1.step max_rounds self with
      | Some (e, _), Some self' => e :: popped_entries1 max_rounds n' self'
      | _, _ => []
      end
  end.

(** The same for the three-node scenario. *)
Fixpoint popped_entries3 (n : nat) (self : Experiment3.CanBus)
    : list (Event Experiment3.Callback) :=
  match n with
  | O => []
  | S n' =>
      match pop_event (Experiment3.base self), Experiment3.step self with
      | Some (e, _), Some self' => e :: popped_entries3 n' self'
      | _, _ => []
      end
  end.

(* ===================================================================== *)
(** * The node state machine *)
(* ===================================================================== *)

Lemma update_state_TEC n : TEC (_update_state n) = TEC n.
Proof.
  unfold _update_state.
  destruct (TEC n >=? 256); [reflexivity|].
  destruct (TEC n >=? 128); reflexivity.
Qed.

Lemma update_state_name n : name (_update_state n) = name n.
Proof.
  unfold _update_state.
  destruct (TEC n >=? 256); [reflexivity|].
  destruct (TEC n >=? 128); reflexivity.
Qed.

Lemma update_state_in_table n : in_table (_update_state n).
Proof.
  unfold in_table, _update_state.
  destruct (Z.geb_spec (TEC n) 256) as [H256|H256]; cbn [TEC state].
  - repeat split; intros; try lia; try discriminate.
  - destruct (Z.geb_spec (TEC n) 128) as [H128|H128]; cbn [TEC state];
      repeat split; intros; try lia; try discriminate.
Qed.

Lemma collide_TEC n : TEC (collide n) = TEC n + 8.
Proof. unfold collide. rewrite update_state_TEC. reflexivity. Qed.

Lemma succeed_TEC_pos n : 0 < TEC n -> TEC (succeed n) = TEC n - 1.
Proof.
  intros H. unfold succeed. rewrite update_state_TEC.
  destruct (Z.gtb_spec (TEC n) 0); [reflexivity | lia].
Qed.

Lemma succeed_TEC_nonpos n : TEC n <= 0 -> TEC (succeed n) = TEC n.
Proof.
  intros H. unfold succeed. rewrite update_state_TEC.
  destruct (Z.gtb_spec (TEC n) 0); [lia | reflexivity].
Qed.

Lemma collide_in_table n : in_table (collide n).
Proof. unfold collide. apply update_state_in_table. Qed.

Lemma succeed_in_table n : in_table (succeed n).
Proof. unfold succeed. apply update_state_in_table. Qed.

Lemma in_table_active n : in_table n -> TEC n < 128 -> state n = ACTIVE.
Proof. intros (_ & _ & H) Hlt. apply H, Hlt. Qed.

(** C1.  After either mutation of a node's error counter ([collide] or
    [succeed]) the stored state is the one the threshold table gives for
    the new counter, and only that one: BUS_OFF exactly when the counter
    is at least 256, ERROR_PASSIVE exactly when it is at least 128 and
    below 256, ACTIVE exactly when it is below 128.  So 127 gives ACTIVE,
    128 to 255 give ERROR_PASSIVE and 256 and more give BUS_OFF. *)
Theorem derived_state_thresholds (n m : CanNode) :
  m = collide n \/ m = succeed n ->
  (256 <= TEC m <-> state m = BUS_OFF) /\
  (128 <= TEC m < 256 <-> state m = ERROR_PASSIVE) /\
  (TEC m < 128 <-> state m = ACTIVE).
Proof.
  intros [-> | ->].
  - apply collide_in_table.
  - apply succeed_in_table.
Qed.

Lemma derived_state_thresholds_witness :
  state (succeed (mkCanNode "[A] DEFENDER" 128 ERROR_PASSIVE)) = ACTIVE /\
  state (collide (mkCanNode "[E] ATTACKER" 120 ACTIVE)) = ERROR_PASSIVE /\
  state (collide (mkCanNode "[E] ATTACKER" 247 ERROR_PASSIVE)) = ERROR_PASSIVE /\
  state (collide (mkCanNode "[E] ATTACKER" 248 ERROR_PASSIVE)) = BUS_OFF.
Proof.
  split; [|split; [|split]].
  - apply (derived_state_thresholds
             (mkCanNode "[A] DEFENDER" 128 ERROR_PASSIVE) _ (or_intror eq_refl)).
    simpl. lia.
  - apply (derived_state_thresholds
             (mkCanNode "[E] ATTACKER" 120 ACTIVE) _ (or_introl eq_refl)).
    simpl. lia.
  - apply (derived_state_thresholds
             (mkCanNode "[E] ATTACKER" 247 ERROR_PASSIVE) _ (or_introl eq_refl)).
    simpl. lia.
  - apply (derived_state_thresholds
             (mkCanNode "[E] ATTACKER" 248 ERROR_PASSIVE) _ (or_introl eq_refl)).
    simpl. lia.
Defined.

Lemma iter_collide_TEC (k : nat) (n : CanNode) :
  TEC (Nat.iter k collide n) = TEC n + 8 * Z.of_nat k.
Proof.
  induction k as [|k IH].
  - simpl. lia.
  - rewrite Nat.iter_succ, collide_TEC, IH. lia.
Qed.

(** C3.  Every call of [collide] adds exactly 8 to the error counter and
    leaves the state recomputed from the new counter; [n] calls on a fresh
    node (counter 0) give counter [8 * n]; after 16 calls the counter is
    128 and the state is ERROR_PASSIVE. *)
Theorem collide_step_size (nm : string) (n : nat) (m : CanNode) :
  TEC (collide m) = TEC m + 8 /\
  in_table (collide m) /\
  TEC (Nat.iter n collide (CanNode_init nm)) = 8 * Z.of_nat n /\
  TEC (Nat.iter 16 collide (CanNode_init nm)) = 128 /\
  state (Nat.iter 16 collide (CanNode_init nm)) = ERROR_PASSIVE.
Proof.
  split; [apply collide_TEC|].
  split; [apply collide_in_table|].
  split; [rewrite iter_collide_TEC; reflexivity|].
  split; reflexivity.
Qed.

Lemma run_ops_nonneg (ops : list NodeOp) (n : CanNode) :
  0 <= TEC n -> 0 <= TEC (run_ops ops n).
Proof.
  revert n. induction ops as [|op ops IH]; intros n Hn.
  - exact Hn.
  - cbn [run_ops fold_left]. apply IH.
    destruct op; cbn [apply_op].
    + rewrite collide_TEC. lia.
    + destruct (Z.lt_ge_cases 0 (TEC n)) as [Hpos|Hzero].
      * rewrite succeed_TEC_pos by exact Hpos. lia.
      * rewrite succeed_TEC_nonpos by exact Hzero. exact Hn.
Qed.

(** C4.  The recovery operation ([succeed] in the source) takes exactly 1
    off a positive error counter and leaves a counter of 0 at 0, and in
    both cases leaves the state recomputed from the new counter.  Hence
    after any sequence of [collide] and [succeed] calls on a fresh node
    the counter is not negative. *)
Theorem recovery_floor (m : CanNode) (nm : string) (ops : list NodeOp) :
  (0 < TEC m -> TEC (succeed m) = TEC m - 1) /\
  (TEC m = 0 -> TEC (succeed m) = 0) /\
  in_table (succeed m) /\
  0 <= TEC (run_ops ops (CanNode_init nm)).
Proof.
  split; [apply succeed_TEC_pos|].
  split; [intros H; rewrite succeed_TEC_nonpos; lia|].
  split; [apply succeed_in_table|].
  apply run_ops_nonneg. simpl. lia.
Qed.

Lemma recovery_floor_witness :
  TEC (succeed (mkCanNode "[A] DEFENDER" 128 ERROR_PASSIVE)) = 127 /\
  TEC (succeed (CanNode_init "[A] DEFENDER")) = 0.
Proof.
  split.
  - apply (proj1 (recovery_floor (mkCanNode "[A] DEFENDER" 128 ERROR_PASSIVE)
                    "[A] DEFENDER" [])).
    simpl. lia.
  - apply (proj1 (proj2 (recovery_floor (CanNode_init "[A] DEFENDER")
                           "[A] DEFENDER" []))).
    reflexivity.
Defined.

(* ===================================================================== *)
(** * The event scheduler *)
(* ===================================================================== *)

Section SchedulerFacts.

Context {CB : Type}.
Implicit Types (e x y : Event CB) (l heap Sc P : list (Event CB)) (b : CanBusBase CB).

Lemma event_ltb_iff x y :
  event_ltb x y = true <->
  fire x < fire y \/ (fire x = fire y /\ order x < order y).
Proof.
  unfold event_ltb.
  rewrite orb_true_iff, andb_true_iff, !Z.ltb_lt, Z.eqb_eq. tauto.
Qed.

Lemma event_ltb_false_iff x y :
  event_ltb x y = false <->
  fire y < fire x \/ (fire x = fire y /\ order y <= order x).
Proof.
  destruct (event_ltb x y) eqn:E.
  - apply event_ltb_iff in E. split; [discriminate | lia].
  - split; [intros _ | reflexivity].
    assert (H : ~ (fire x < fire y \/ (fire x = fire y /\ order x < order y))).
    { intros H. apply event_ltb_iff in H. congruence. }
    lia.
Qed.

Lemma heappop_None heap : heappop heap = None <-> heap = [].
Proof.
  destruct heap as [|e heap]; cbn [heappop].
  - tauto.
  - split; [|discriminate].
    destruct (heappop heap) as [[m rest]|]; [|discriminate].
    destruct (event_ltb m e); discriminate.
Qed.

Lemma heappop_perm heap : forall m rest,
  heappop heap = Some (m, rest) -> Permutation heap (m :: rest).
Proof.
  induction heap as [|e heap IH]; intros m rest H; cbn [heappop] in H.
  - discriminate.
  - destruct (heappop heap) as [[m' rest']|] eqn:E.
    + destruct (event_ltb m' e); inversion H; subst; clear H.
      * rewrite (IH _ _ eq_refl). apply perm_swap.
      * reflexivity.
    + apply heappop_None in E. inversion H; subst. reflexivity.
Qed.

(** No remaining entry is below the popped one. *)
Lemma heappop_least heap : forall m rest,
  heappop heap = Some (m, rest) ->
  Forall (fun x => event_ltb x m = false) rest.
Proof.
  induction heap as [|e heap IH]; intros m rest H; cbn [heappop] in H.
  - discriminate.
  - destruct (heappop heap) as [[m' rest']|] eqn:E.
    + specialize (IH _ _ eq_refl).
      destruct (event_ltb m' e) eqn:Elt; inversion H; subst; clear H.
      * constructor; [|exact IH].
        apply event_ltb_iff in Elt. apply event_ltb_false_iff. lia.
      * apply event_ltb_false_iff in Elt.
        assert (Hall : Forall (fun x => event_ltb x m = false) (m' :: rest')).
        { constructor.
          - apply event_ltb_false_iff. lia.
          - revert IH. apply Forall_impl. intros x Hx.
            apply event_ltb_false_iff in Hx. apply event_ltb_false_iff. lia. }
        rewrite Forall_forall in *. intros x Hx. apply Hall.
        apply (Permutation_in x (heappop_perm _ _ _ E)). exact Hx.
    + inversion H; subst. constructor.
Qed.

Lemma pop_event_inv b e b' :
  pop_event b = Some (e, b') ->
  exists rest,
    heappop (events b) = Some (e, rest) /\
    b' = set_time_us (fire e) (set_events rest b).
Proof.
  unfold pop_event. intros H.
  destruct (heappop (events b)) as [[m rest]|]; [|discriminate].
  inversion H; subst. exists rest. split; reflexivity.
Qed.

Lemma numbered_app Sc e :
  numbered Sc -> order e = Z.of_nat (length Sc) -> numbered (Sc ++ [e]).
Proof.
  intros HS He i x Hx.
  destruct (Nat.lt_ge_cases i (length Sc)) as [Hlt|Hge].
  - rewrite nth_error_app1 in Hx by exact Hlt. apply HS, Hx.
  - rewrite nth_error_app2 in Hx by exact Hge.
    destruct (i - length Sc)%nat as [|k] eqn:Ek; cbn in Hx.
    + inversion Hx; subst x. rewrite He. f_equal. lia.
    + destruct k; discriminate.
Qed.

Lemma numbered_bound Sc e : numbered Sc -> In e Sc -> 0 <= order e < Z.of_nat (length Sc).
Proof.
  intros HS Hin. apply In_nth_error in Hin as [i Hi].
  rewrite (HS _ _ Hi).
  assert (i < length Sc)%nat by (apply nth_error_Some; congruence).
  lia.
Qed.

Lemma numbered_precedes Sc x y : numbered Sc -> precedes x y Sc -> order x < order y.
Proof.
  intros HS (l1 & l2 & l3 & ->).
  assert (Hx : order x = Z.of_nat (length l1)).
  { apply HS. rewrite nth_error_app2 by apply Nat.le_refl.
    rewrite Nat.sub_diag. reflexivity. }
  assert (Hy : order y = Z.of_nat (length l1 + S (length l2))).
  { apply HS. rewrite nth_error_app2 by lia.
    replace (length l1 + S (length l2) - length l1)%nat with (S (length l2)) by lia.
    cbn [nth_error]. rewrite nth_error_app2 by apply Nat.le_refl.
    rewrite Nat.sub_diag. reflexivity. }
  lia.
Qed.

Lemma numbered_NoDup Sc : numbered Sc -> NoDup (map order Sc).
Proof.
  intros HS. apply NoDup_nth_error. intros i j Hi Hij.
  rewrite length_map in Hi.
  rewrite !nth_error_map in Hij.
  destruct (nth_error Sc i) as [x|] eqn:Ex.
  - destruct (nth_error Sc j) as [y|] eqn:Ey; [|discriminate].
    cbn in Hij. inversion Hij as [Hxy].
    rewrite (HS _ _ Ex), (HS _ _ Ey) in Hxy. lia.
  - apply nth_error_None in Ex. lia.
Qed.

(** The bookkeeping behind every history: sequence numbers count the calls
    of [schedule], and every entry pushed is either popped or pending. *)
Lemma reach_bookkeeping Sc P b :
  reach Sc P b ->
  numbered Sc /\
  counter b = Z.of_nat (length Sc) /\
  Permutation Sc (P ++ events b).
Proof.
  induction 1 as [ | Sc P b d cb _ (Hn & Hc & Hp)
                   | Sc P b e b' _ (Hn & Hc & Hp) Hpop
                   | Sc P b b' _ (Hn & Hc & Hp) (_ & Hev & Hcnt) ].
  - split; [|split].
    + intros i e Hi. destruct i; discriminate.
    + reflexivity.
    + constructor.
  - split; [|split].
    + apply numbered_app; [exact Hn | exact Hc].
    + cbn [schedule counter]. rewrite length_app. cbn [length]. lia.
    + cbn [schedule events]. unfold heappush.
      rewrite app_assoc. apply Permutation_app_tail, Hp.
  - apply pop_event_inv in Hpop as (rest & Hpop & ->).
    split; [exact Hn | split; [exact Hc|] ].
    cbn [set_time_us set_events events].
    rewrite Hp, <- app_assoc. apply Permutation_app_head.
    cbn [app]. apply heappop_perm, Hpop.
  - split; [exact Hn | split; [congruence|] ]. rewrite Hev. exact Hp.
Qed.

Lemma precedes_app_tail x y l l' : precedes x y l -> precedes x y (l ++ l').
Proof.
  intros (l1 & l2 & l3 & ->). exists l1, l2, (l3 ++ l').
  rewrite <- !app_assoc. cbn [app]. rewrite <- !app_assoc. reflexivity.
Qed.

Lemma precedes_last x y l : In x l -> precedes x y (l ++ [y]).
Proof.
  intros Hin. apply in_split in Hin as (l1 & l2 & ->).
  exists l1, l2, []. rewrite <- app_assoc. reflexivity.
Qed.

(** Among entries with one fire time, a lower sequence number pops first. *)
Lemma reach_fifo Sc P b :
  reach Sc P b ->
  forall x y, In x Sc -> In y P -> fire x = fire y -> order x < order y ->
              precedes x y P.
Proof.
  induction 1 as [ | Sc P b d cb Hr IH
                   | Sc P b e b' Hr IH Hpop
                   | Sc P b b' Hr IH _ ]; intros x y Hx Hy Hfire Hord.
  - destruct Hy.
  - destruct (reach_bookkeeping _ _ _ Hr) as (Hn & Hc & Hp).
    apply in_app_or in Hx as [Hx | [<- | []]]; [apply IH; assumption|].
    assert (HyS : In y Sc).
    { apply (Permutation_in y (Permutation_sym Hp)), in_or_app. left. exact Hy. }
    pose proof (numbered_bound _ _ Hn HyS) as Hb.
    cbn [order fst snd] in Hord. lia.
  - destruct (reach_bookkeeping _ _ _ Hr) as (Hn & Hc & Hp).
    apply pop_event_inv in Hpop as (rest & Hpop & ->).
    apply in_app_or in Hy as [Hy | [<- | []]].
    + apply precedes_app_tail, IH; assumption.
    + apply (Permutation_in x Hp) in Hx. apply in_app_or in Hx as [Hx | Hx].
      * apply precedes_last, Hx.
      * apply (Permutation_in x (heappop_perm _ _ _ Hpop)) in Hx.
        destruct Hx as [<- | Hx]; [lia|].
        pose proof (heappop_least _ _ _ Hpop) as Hleast.
        rewrite Forall_forall in Hleast. specialize (Hleast _ Hx).
        apply event_ltb_false_iff in Hleast. lia.
  - apply IH; assumption.
Qed.

End SchedulerFacts.

Section QueueFacts.

Context {CB : Type}.
Implicit Types (e x y : Event CB) (l heap Sc P : list (Event CB)) (b : CanBusBase CB).

(** An entry strictly below all the others is the one popped. *)
Lemma heappop_new_least heap e :
  Forall (fun x => event_ltb e x = true) heap ->
  heappop (heap ++ [e]) = Some (e, heap).
Proof.
  induction heap as [|a heap IH]; intros Hall.
  - reflexivity.
  - inversion Hall as [|? ? Ha Hrest]; subst.
    cbn [app heappop]. rewrite (IH Hrest), Ha. reflexivity.
Qed.

Lemma NoDup_map_compose {A B C : Type} (f : A -> B) (g : B -> C) (l : list A) :
  NoDup (map (fun a => g (f a)) l) -> NoDup (map f l).
Proof.
  induction l as [|a l IH]; cbn [map]; intros H.
  - constructor.
  - inversion H as [|? ? Hnotin Hnodup]; subst. constructor.
    + intros Hin. apply Hnotin. apply in_map_iff in Hin as (a' & Ha' & Hin).
      apply in_map_iff. exists a'. split; [congruence | exact Hin].
    + apply IH, Hnodup.
Qed.

Lemma reach_pending_orders Sc P b : reach Sc P b -> NoDup (map order (events b)).
Proof.
  intros Hr. destruct (reach_bookkeeping _ _ _ Hr) as (Hn & _ & Hp).
  pose proof (numbered_NoDup _ Hn) as Hnd.
  apply (Permutation_NoDup (Permutation_map order Hp)) in Hnd.
  rewrite map_app in Hnd. apply NoDup_app_remove_l in Hnd. exact Hnd.
Qed.

End QueueFacts.

(** ** The runs of both scenarios are histories of the scheduler *)

Section HistoryFacts.

Context {CB : Type}.
Implicit Types (b : CanBusBase CB) (tr : list CB).

Lemma history_of_init : history_of [] (@CanBusBase_init CB).
Proof. exists [], []. split; [apply reach_init | reflexivity]. Qed.

Lemma history_of_schedule tr b delay_us cb :
  history_of tr b -> history_of tr (schedule delay_us cb b).
Proof.
  intros (Sc & P & H & Htr). eexists _, P.
  split; [apply (reach_schedule _ _ _ _ _ H) | exact Htr].
Qed.

Lemma history_of_pop tr b e b' :
  history_of tr b -> pop_event b = Some (e, b') ->
  history_of (tr ++ [callback e]) b'.
Proof.
  intros (Sc & P & H & Htr) Hpop. eexists Sc, _.
  split; [apply (reach_pop _ _ _ _ _ H Hpop)|].
  rewrite map_app, Htr. reflexivity.
Qed.

Lemma history_of_frame tr b b' :
  history_of tr b -> same_queue b b' -> history_of tr b'.
Proof.
  intros (Sc & P & H & Htr) Hsame. exists Sc, P.
  split; [apply (reach_frame _ _ _ _ H Hsame) | exact Htr].
Qed.

Lemma history_of_set_rounds tr b r :
  history_of tr b -> history_of tr (set_rounds r b).
Proof. intros H. apply (history_of_frame _ _ _ H). repeat split. Qed.

Lemma history_of_set_attacker tr b n :
  history_of tr b -> history_of tr (set_attacker n b).
Proof. intros H. apply (history_of_frame _ _ _ H). repeat split. Qed.

Lemma history_of_set_defender tr b n :
  history_of tr b -> history_of tr (set_defender n b).
Proof. intros H. apply (history_of_frame _ _ _ H). repeat split. Qed.

Lemma history_of_record_history tr b :
  history_of tr b -> history_of tr (record_history b).
Proof. intros H. apply (history_of_frame _ _ _ H). repeat split. Qed.

End HistoryFacts.

Ltac history_of_steps :=
  repeat match goal with
         | |- history_of _ (if ?c then _ else _) => destruct c
         | |- history_of _ (schedule _ _ _) => apply history_of_schedule
         | |- history_of _ (set_rounds _ _) => apply history_of_set_rounds
         | |- history_of _ (set_attacker _ _) => apply history_of_set_attacker
         | |- history_of _ (set_defender _ _) => apply history_of_set_defender
         | |- history_of _ (record_history _) => apply history_of_record_history
         end.

Lemma experiment1_call_history (max_rounds : Z) tr cb (b : Experiment1.CanBus) :
  history_of tr b -> history_of tr (Experiment1.call max_rounds cb b).
Proof.
  intros H.
  destruct cb; cbn [Experiment1.call];
    unfold Experiment1.__start_round, Experiment1.__handle_collision,
      Experiment1.__recover_defender, Experiment1.__recover_attacker;
    cbv zeta; history_of_steps; exact H.
Qed.

(** The run loop of the two-node scenario is a history of the scheduler,
    and the entries it pops are the callbacks it runs. *)
Lemma experiment1_history (max_rounds : Z) (n : nat) :
  history_of
    (Experiment1.popped max_rounds n Experiment1.execute_start)
    (Experiment1.iterate max_rounds n Experiment1.execute_start).
Proof.
  assert (Hstart : history_of [] Experiment1.execute_start).
  { unfold Experiment1.execute_start, Experiment1.CanBus_init.
    history_of_steps. apply history_of_init. }
  change (Experiment1.popped max_rounds n Experiment1.execute_start)
    with ([] ++ Experiment1.popped max_rounds n Experiment1.execute_start).
  revert Hstart. generalize (@nil Experiment1.Callback).
  generalize Experiment1.execute_start.
  induction n as [|n IH]; intros b tr Hb;
    cbn [Experiment1.iterate Experiment1.popped].
  - rewrite app_nil_r. exact Hb.
  - unfold Experiment1.step.
    destruct (pop_event b) as [[e b1]|] eqn:Hpop.
    + replace (tr ++ callback e ::
                 Experiment1.popped max_rounds n
                   (Experiment1.call max_rounds (callback e) (record_history b1)))
        with ((tr ++ [callback e]) ++
                 Experiment1.popped max_rounds n
                   (Experiment1.call max_rounds (callback e) (record_history b1)))
        by (rewrite <- app_assoc; reflexivity).
      apply IH. apply experiment1_call_history, history_of_record_history.
      apply (history_of_pop _ _ _ _ Hb Hpop).
    + rewrite app_nil_r. exact Hb.
Qed.

Lemma experiment3_call_history tr cb (self : Experiment3.CanBus) :
  history_of tr (Experiment3.base self) ->
  history_of tr (Experiment3.base (Experiment3.call cb self)).
Proof.
  intros H.
  destruct cb; cbn [Experiment3.call];
    unfold Experiment3.__send_attack, Experiment3.__handle_collision,
      Experiment3.__recover_defender, Experiment3.__collide_passive,
      Experiment3.__assistant_send;
    cbv zeta;
    repeat match goal with
           | |- history_of _ (Experiment3.base (if ?c then _ else _)) => destruct c
           end;
    cbn [Experiment3.on_base Experiment3.base];
    history_of_steps; exact H.
Qed.

(** So is the run loop of the three-node scenario. *)
Lemma experiment3_history (n : nat) :
  history_of
    (Experiment3.popped n Experiment3.execute_start)
    (Experiment3.base (Experiment3.iterate n Experiment3.execute_start)).
Proof.
  assert (Hstart : history_of [] (Experiment3.base Experiment3.execute_start)).
  { unfold Experiment3.execute_start. cbn [Experiment3.on_base Experiment3.base].
    history_of_steps. apply history_of_init. }
  change (Experiment3.popped n Experiment3.execute_start)
    with ([] ++ Experiment3.popped n Experiment3.execute_start).
  revert Hstart. generalize (@nil Experiment3.Callback).
  generalize Experiment3.execute_start.
  induction n as [|n IH]; intros self tr Hb;
    cbn [Experiment3.iterate Experiment3.popped].
  - rewrite app_nil_r. exact Hb.
  - unfold Experiment3.step.
    destruct (Experiment3.running self).
    + destruct (pop_event (Experiment3.base self)) as [[e b1]|] eqn:Hpop.
      * match goal with
        | |- history_of (tr ++ callback e :: ?rest) _ =>
            replace (tr ++ callback e :: rest)
              with ((tr ++ [callback e]) ++ rest)
              by (rewrite <- app_assoc; reflexivity)
        end.
        apply IH. apply experiment3_call_history.
        unfold Experiment3.__record_history.
        cbn [Experiment3.on_base Experiment3.base].
        apply history_of_record_history.
        apply (history_of_pop _ _ _ _ Hb Hpop).
      * rewrite app_nil_r. exact Hb.
    + destruct (pop_event (Experiment3.base self)) as [[e b1]|];
        rewrite app_nil_r; exact Hb.
Qed.

(** C2, counterexample.  On a fresh bus, [schedule] with the delay [-5]
    is not refused: the entry is pushed with fire time [-5], before the
    clock, and the insertion counter moves on. *)
Lemma schedule_negative_delay_not_rejected :
  ~ schedule_rejects (-5) Experiment1.StartRound CanBusBase_init /\
  events (schedule (-5) Experiment1.StartRound CanBusBase_init)
    = [(-5, 0, Experiment1.StartRound)] /\
  counter (schedule (-5) Experiment1.StartRound CanBusBase_init) = 1.
Proof.
  split; [|split; reflexivity].
  intros [Hev _]. discriminate Hev.
Qed.

(** C2, as the code has it.  [schedule] accepts every integer delay, a negative
    one included: it pushes exactly one entry, whose fire time is the clock
    plus the delay as given (no clamping) and whose sequence number is the
    insertion counter, and it increments that counter.  When the delay is
    negative and no pending entry lies before the clock, the new entry is
    the next one popped and the pop moves the clock backwards. *)
Theorem schedule_accepts_any_delay {CB : Type} (b : CanBusBase CB) (delay_us : Z) (cb : CB) :
  events (schedule delay_us cb b)
    = events b ++ [(time_us b + delay_us, counter b, cb)] /\
  counter (schedule delay_us cb b) = counter b + 1 /\
  ~ schedule_rejects delay_us cb b /\
  (delay_us < 0 ->
   Forall (fun e => time_us b <= fire e) (events b) ->
   exists b',
     pop_event (schedule delay_us cb b)
       = Some ((time_us b + delay_us, counter b, cb), b') /\
     time_us b' = time_us b + delay_us /\
     time_us b' < time_us b).
Proof.
  split; [reflexivity|]. split; [reflexivity|]. split.
  - intros [_ Hc]. cbn [schedule counter] in Hc. lia.
  - intros Hneg Hall.
    unfold pop_event. cbn [schedule events]. unfold heappush.
    rewrite heappop_new_least.
    + eexists. split; [reflexivity|]. cbn [set_time_us time_us fire fst]. lia.
    + revert Hall. apply Forall_impl. intros e He.
      apply event_ltb_iff. left. cbn [fire fst]. lia.
Qed.

Lemma schedule_accepts_any_delay_witness :
  exists b',
    pop_event (schedule (-5) Experiment1.StartRound
                 (schedule 0 Experiment1.HandleCollision CanBusBase_init))
      = Some ((-5, 1, Experiment1.StartRound), b') /\
    time_us b' = -5 /\
    time_us b' < 0.
Proof.
  apply (proj2 (proj2 (proj2
    (schedule_accepts_any_delay
       (schedule 0 Experiment1.HandleCollision CanBusBase_init)
       (-5) Experiment1.StartRound)))).
  - lia.
  - repeat constructor. cbn. lia.
Defined.

(** C5.  Let [A] and [B] be two entries pushed by [schedule], [A] by an
    earlier call than [B], with the same fire time.  Whenever the run loop
    has popped [B], it has popped [A] before it: entries with equal fire
    time run in the order they were scheduled. *)
Theorem fifo_tie_break {CB : Type} (Sc P : list (Event CB)) (b : CanBusBase CB)
    (A B : Event CB) :
  reach Sc P b ->
  precedes A B Sc ->
  fire A = fire B ->
  In B P ->
  precedes A B P.
Proof.
  intros Hr Hsched Hfire HB.
  destruct (reach_bookkeeping _ _ _ Hr) as (Hn & _ & _).
  apply (reach_fifo _ _ _ Hr); try assumption.
  - destruct Hsched as (l1 & l2 & l3 & ->). apply in_or_app. right. left. reflexivity.
  - apply (numbered_precedes _ _ _ Hn Hsched).
Qed.

Lemma fifo_tie_break_witness :
  precedes (0, 0, Experiment3.SendAttack) (0, 1, Experiment3.AssistantSend)
    [(0, 0, Experiment3.SendAttack); (0, 1, Experiment3.AssistantSend)].
Proof.
  pose (b0 := @CanBusBase_init Experiment3.Callback).
  pose (b1 := schedule 0 Experiment3.SendAttack b0).
  pose (b2 := schedule 0 Experiment3.AssistantSend b1).
  pose (A := ((0, 0, Experiment3.SendAttack) : Event Experiment3.Callback)).
  pose (B := ((0, 1, Experiment3.AssistantSend) : Event Experiment3.Callback)).
  pose (b3 := set_time_us 0 (set_events [B] b2)).
  pose (b4 := set_time_us 0 (set_events [] b3)).
  assert (H2 : reach [A; B] [] b2).
  { exact (reach_schedule _ _ b1 0 Experiment3.AssistantSend
             (reach_schedule _ _ b0 0 Experiment3.SendAttack reach_init)). }
  assert (H4 : reach [A; B] [A; B] b4).
  { exact (reach_pop _ _ b3 B b4 (reach_pop _ _ b2 A b3 H2 eq_refl) eq_refl). }
  apply (fifo_tie_break [A; B] [A; B] b4 A B H4).
  - exists [], [], []. reflexivity.
  - reflexivity.
  - right. left. reflexivity.
Defined.

(** C10.  In every history of the scheduler, the entry pushed by a call of
    [schedule] takes the insertion counter as its sequence number, which
    is strictly greater than the sequence number of every entry pushed
    before (popped or still pending), and the counter is incremented.  So
    the pending entries have pairwise distinct [(fire time, sequence)]
    keys, and comparing two of them as Python tuples is settled by these
    keys, one way or the other, without reaching the callbacks. *)
Theorem sequence_numbers_fresh {CB : Type} (Sc P : list (Event CB))
    (b : CanBusBase CB) (delay_us : Z) (cb : CB) :
  reach Sc P b ->
  events (schedule delay_us cb b)
    = events b ++ [(time_us b + delay_us, counter b, cb)] /\
  counter (schedule delay_us cb b) = counter b + 1 /\
  (forall x, In x Sc -> order x < counter b) /\
  NoDup (map (fun x => (fire x, order x)) (events b)) /\
  (forall i j x y,
      i <> j ->
      nth_error (events b) i = Some x ->
      nth_error (events b) j = Some y ->
      tuple_lt x y = Some (event_ltb x y) /\
      event_ltb x y = negb (event_ltb y x)).
Proof.
  intros Hr.
  destruct (reach_bookkeeping _ _ _ Hr) as (Hn & Hc & Hp).
  pose proof (reach_pending_orders _ _ _ Hr) as Hnd.
  split; [reflexivity|]. split; [reflexivity|]. split; [|split].
  - intros x Hx. pose proof (numbered_bound _ _ Hn Hx). lia.
  - apply (NoDup_map_compose (fun x => (fire x, order x)) snd). exact Hnd.
  - intros i j x y Hij Hx Hy.
    assert (Hord : order x <> order y).
    { intros Heq. apply Hij.
      assert (Hi : (i < length (map order (events b)))%nat).
      { rewrite length_map. apply nth_error_Some. congruence. }
      apply (proj1 (NoDup_nth_error _) Hnd i j Hi).
      rewrite !nth_error_map, Hx, Hy. cbn. congruence. }
    split.
    + unfold tuple_lt, event_ltb.
      destruct (Z.eqb_spec (fire x) (fire y)) as [Hf|Hf].
      * destruct (Z.eqb_spec (order x) (order y)) as [Ho|Ho]; [contradiction|].
        rewrite Hf, Z.ltb_irrefl. reflexivity.
      * rewrite andb_false_l, orb_false_r. reflexivity.
    + destruct (event_ltb x y) eqn:Exy, (event_ltb y x) eqn:Eyx;
        try reflexivity; exfalso.
      * apply event_ltb_iff in Exy, Eyx. lia.
      * apply event_ltb_false_iff in Exy, Eyx. lia.
Qed.

Lemma sequence_numbers_fresh_witness :
  let b := schedule 0 Experiment3.AssistantSend
             (schedule 0 Experiment3.SendAttack CanBusBase_init) in
  order (0, 0, Experiment3.SendAttack) < counter b /\
  counter (schedule 200 Experiment3.AssistantSend b) = 3 /\
  tuple_lt (0, 0, Experiment3.SendAttack) (0, 1, Experiment3.AssistantSend)
    = Some true.
Proof.
  pose (b0 := @CanBusBase_init Experiment3.Callback).
  pose (b1 := schedule 0 Experiment3.SendAttack b0).
  pose (b2 := schedule 0 Experiment3.AssistantSend b1).
  pose (A := ((0, 0, Experiment3.SendAttack) : Event Experiment3.Callback)).
  pose (B := ((0, 1, Experiment3.AssistantSend) : Event Experiment3.Callback)).
  assert (H2 : reach [A; B] [] b2).
  { exact (reach_schedule _ _ b1 0 Experiment3.AssistantSend
             (reach_schedule _ _ b0 0 Experiment3.SendAttack reach_init)). }
  destruct (sequence_numbers_fresh [A; B] [] b2 200 Experiment3.AssistantSend H2)
    as (_ & Hcnt & Hfresh & _ & Hcmp).
  split; [|split].
  - apply (Hfresh A). left. reflexivity.
  - exact Hcnt.
  - exact (proj1 (Hcmp 0%nat 1%nat A B (fun H => O_S _ H) eq_refl eq_refl)).
Defined.

(* ===================================================================== *)
(** * The virtual clock *)
(* ===================================================================== *)

Section ClockFacts.

Context {CB : Type}.
Implicit Types (e : Event CB) (b : CanBusBase CB).

Lemma Sorted_snoc (l : list Z) (t : Z) :
  Sorted Z.le l -> Forall (fun x => x <= t) l -> Sorted Z.le (l ++ [t]).
Proof.
  induction l as [|a l IH]; intros Hs Hall; cbn [app].
  - repeat constructor.
  - inversion Hs as [|? ? Hs' Hhd]; subst.
    inversion Hall as [|? ? Ha Hall']; subst.
    constructor; [apply IH; assumption|].
    destruct l as [|a' l]; cbn [app].
    + constructor. exact Ha.
    + inversion Hhd; subst. constructor. assumption.
Qed.

Lemma clock_inv_init : clock_inv (@CanBusBase_init CB).
Proof. repeat split; constructor. Qed.

Lemma clock_inv_schedule b delay_us cb :
  0 <= delay_us -> clock_inv b -> clock_inv (schedule delay_us cb b).
Proof.
  intros Hd (Hev & Hpast & Hsorted).
  split; [|split; assumption].
  cbn [schedule events time_us]. unfold heappush.
  apply Forall_app. split; [exact Hev|].
  repeat constructor. cbn [fire fst]. lia.
Qed.

Lemma clock_inv_pop b e b' :
  clock_inv b -> pop_event b = Some (e, b') -> clock_inv (record_history b').
Proof.
  intros (Hev & Hpast & Hsorted) Hpop.
  apply pop_event_inv in Hpop as (rest & Hpop & ->).
  assert (Hnow : time_us b <= fire e).
  { rewrite Forall_forall in Hev. apply Hev.
    apply (Permutation_in e (Permutation_sym (heappop_perm _ _ _ Hpop))).
    left. reflexivity. }
  assert (Hpast' : Forall (fun t => t <= fire e) (hist_time (history b))).
  { revert Hpast. apply Forall_impl. intros t Ht. lia. }
  split; [|split]; cbn [record_history set_time_us set_events
                         events time_us history hist_time].
  - pose proof (heappop_least _ _ _ Hpop) as Hleast.
    revert Hleast. apply Forall_impl. intros x Hx.
    apply event_ltb_false_iff in Hx. lia.
  - apply Forall_app. split; [exact Hpast'|].
    repeat constructor. lia.
  - apply Sorted_snoc; assumption.
Qed.

End ClockFacts.

Module Experiment1Clock.
Import Experiment1.

Lemma GAP_US_nonneg : 0 <= GAP_US.
Proof. unfold GAP_US. lia. Qed.

Lemma clock_inv1_call max_rounds cb (b : CanBus) :
  clock_inv b -> clock_inv (call max_rounds cb b).
Proof.
  intros H. pose proof GAP_US_nonneg as Hgap.
  destruct cb; cbn [call];
    unfold __start_round, __handle_collision, __recover_defender, __recover_attacker;
    cbv zeta;
    repeat match goal with
           | |- clock_inv (if ?c then _ else _) => destruct c
           | |- clock_inv (schedule _ _ _) => apply clock_inv_schedule; [lia|]
           end;
    exact H.
Qed.

Lemma clock_inv1_step max_rounds (b b' : CanBus) :
  clock_inv b -> step max_rounds b = Some b' -> clock_inv b'.
Proof.
  unfold step. intros H Hstep.
  destruct (pop_event b) as [[e b1]|] eqn:Hpop; [|discriminate].
  inversion Hstep; subst. apply clock_inv1_call.
  apply (clock_inv_pop _ _ _ H Hpop).
Qed.

Lemma clock_inv1_iterate max_rounds n : forall b : CanBus,
  clock_inv b -> clock_inv (iterate max_rounds n b).
Proof.
  induction n as [|n IH]; intros b H; cbn [iterate].
  - exact H.
  - destruct (step max_rounds b) as [b'|] eqn:Hstep; [|exact H].
    apply IH. apply (clock_inv1_step _ _ _ H Hstep).
Qed.

Lemma clock_inv1_execute_start : clock_inv execute_start.
Proof.
  unfold execute_start. apply clock_inv_schedule; [lia|].
  exact clock_inv_init.
Qed.

End Experiment1Clock.

Module Experiment3Clock.
Import Experiment3.

Lemma clock_inv3_call cb (self : CanBus) :
  clock_inv (base self) -> clock_inv (base (call cb self)).
Proof.
  intros H.
  destruct cb; cbn [call];
    unfold __send_attack, __handle_collision, __recover_defender,
      __collide_passive, __assistant_send;
    cbv zeta;
    repeat match goal with
           | |- clock_inv (base (if ?c then _ else _)) => destruct c
           | |- clock_inv (base (on_base (schedule _ _) _)) =>
               cbn [on_base base]
           | |- clock_inv (schedule _ _ _) =>
               apply clock_inv_schedule;
               [unfold GAP_US, ASSISTANT_GAP_US, ATTACKER_PERIOD_US; lia|]
           end;
    exact H.
Qed.

Lemma clock_inv3_step (self self' : CanBus) :
  clock_inv (base self) -> step self = Some self' -> clock_inv (base self').
Proof.
  unfold step. intros H Hstep.
  destruct (running self); [|discriminate].
  destruct (pop_event (base self)) as [[e b1]|] eqn:Hpop; [|discriminate].
  inversion Hstep; subst. apply clock_inv3_call.
  apply (clock_inv_pop _ _ _ H Hpop).
Qed.

Lemma clock_inv3_iterate n : forall self : CanBus,
  clock_inv (base self) -> clock_inv (base (iterate n self)).
Proof.
  induction n as [|n IH]; intros self H; cbn [iterate].
  - exact H.
  - destruct (step self) as [self'|] eqn:Hstep; [|exact H].
    apply IH. apply (clock_inv3_step _ _ H Hstep).
Qed.

Lemma clock_inv3_execute_start : clock_inv (base execute_start).
Proof.
  unfold execute_start. cbn [on_base base].
  apply clock_inv_schedule; [lia|]. apply clock_inv_schedule; [lia|].
  exact clock_inv_init.
Qed.

End Experiment3Clock.

(** C6.  In both scenarios, after any number of iterations of the run
    loop, the clock values recorded at the pops (the ["time"] list of the
    history) are in non-decreasing order, and no pending entry has a fire
    time before the clock: the driver code only schedules with the delays
    0, [GAP_US], [ASSISTANT_GAP_US], [ATTACKER_PERIOD_US] and their
    minimum, none of which is negative.  For the two-node scenario this
    holds for every round limit. *)
Theorem monotonic_clock (max_rounds : Z) (n : nat) :
  let b1 := Experiment1.iterate max_rounds n Experiment1.execute_start in
  let b3 := Experiment3.base (Experiment3.iterate n Experiment3.execute_start) in
  (Sorted Z.le (hist_time (history b1)) /\
   Forall (fun e => time_us b1 <= fire e) (events b1)) /\
  (Sorted Z.le (hist_time (history b3)) /\
   Forall (fun e => time_us b3 <= fire e) (events b3)).
Proof.
  cbv zeta. split.
  - destruct (Experiment1Clock.clock_inv1_iterate max_rounds n _
                Experiment1Clock.clock_inv1_execute_start) as (Hev & _ & Hs).
    split; assumption.
  - destruct (Experiment3Clock.clock_inv3_iterate n _
                Experiment3Clock.clock_inv3_execute_start) as (Hev & _ & Hs).
    split; assumption.
Qed.

(* ===================================================================== *)
(** * The two-node collision spiral *)
(* ===================================================================== *)

Lemma in_table_active_eqb n :
  in_table n -> ErrorStates_eqb (state n) ACTIVE = (TEC n <? 128).
Proof.
  intros (Hoff & Hpas & Hact).
  destruct (Z.ltb_spec (TEC n) 128) as [Hlt|Hge].
  - rewrite (proj1 Hact Hlt). reflexivity.
  - destruct (state n) eqn:E; try reflexivity.
    pose proof (proj2 Hact eq_refl). lia.
Qed.

Module Experiment1Facts.
Import Experiment1 Experiment1Runs.

Section Rounds.

Variable max_rounds : Z.

Local Abbreviation runs := (runs max_rounds).
Local Abbreviation call := (call max_rounds).
Local Abbreviation step := (step max_rounds).
Local Abbreviation iterate := (iterate max_rounds).
Local Abbreviation popped := (popped max_rounds).

(** *** What each callback does to the bus *)

Lemma start_round_spec (b : CanBus) :
  let b' := __start_round max_rounds b in
  attacker b' = attacker b /\ defender b' = defender b /\
  rounds b' = rounds b + 1 /\
  events b' =
    if rounds b + 1 >? max_rounds then events b
    else events b ++ [(time_us b + 0, counter b, HandleCollision)].
Proof.
  unfold __start_round. cbv zeta. cbn [set_rounds rounds].
  destruct (rounds b + 1 >? max_rounds); repeat split; reflexivity.
Qed.

Lemma handle_collision_spec (b : CanBus) :
  let b' := __handle_collision b in
  attacker b' = collide (attacker b) /\ defender b' = collide (defender b) /\
  rounds b' = rounds b /\
  events b' =
    events b ++ [(time_us b + GAP_US, counter b,
                  if TEC (attacker b) + 8 <? 128 then HandleCollision
                  else RecoverDefender)].
Proof.
  unfold __handle_collision. cbv zeta. cbn [set_attacker set_defender attacker].
  rewrite (in_table_active_eqb _ (collide_in_table _)), collide_TEC.
  destruct (TEC (attacker b) + 8 <? 128); repeat split; reflexivity.
Qed.

Lemma recover_defender_spec (b : CanBus) :
  let b' := __recover_defender b in
  attacker b' = attacker b /\ defender b' = succeed (defender b) /\
  rounds b' = rounds b /\
  events b' =
    events b ++ [(time_us b + GAP_US, counter b,
                  if TEC (succeed (defender b)) <? 128 then RecoverAttacker
                  else RecoverDefender)].
Proof.
  unfold __recover_defender. cbv zeta. cbn [set_defender defender].
  rewrite (in_table_active_eqb _ (succeed_in_table _)).
  destruct (TEC (succeed (defender b)) <? 128); repeat split; reflexivity.
Qed.

Lemma recover_attacker_spec (b : CanBus) :
  let b' := __recover_attacker b in
  attacker b' = succeed (attacker b) /\ defender b' = defender b /\
  rounds b' = rounds b /\
  events b' =
    events b ++ [(time_us b + GAP_US, counter b,
                  if TEC (succeed (attacker b)) <? 128 then StartRound
                  else RecoverAttacker)].
Proof.
  unfold __recover_attacker. cbv zeta. cbn [set_attacker attacker].
  rewrite (in_table_active_eqb _ (succeed_in_table _)).
  destruct (TEC (succeed (attacker b)) <? 128); repeat split; reflexivity.
Qed.

(** *** One iteration of the loop on a queue of one entry *)

Lemma pop_event_single (b : CanBus) t c cb :
  events b = [(t, c, cb)] ->
  pop_event b = Some ((t, c, cb), set_time_us t (set_events [] b)).
Proof. intros H. unfold pop_event. rewrite H. reflexivity. Qed.

Lemma runs_single (b : CanBus) t c cb :
  events b = [(t, c, cb)] ->
  runs b [cb] (call cb (record_history (set_time_us t (set_events [] b)))).
Proof.
  intros H.
  apply (runs_cons max_rounds b (t, c, cb) _ [] _ (pop_event_single _ _ _ _ H)).
  apply runs_nil.
Qed.

Lemma runs_app (b1 b2 b3 : CanBus) tr1 tr2 :
  runs b1 tr1 b2 -> runs b2 tr2 b3 -> runs b1 (tr1 ++ tr2) b3.
Proof.
  induction 1 as [b | b e b1 tr b' Hpop _ IH]; intros H2; cbn [app].
  - exact H2.
  - apply (runs_cons _ _ _ _ _ _ Hpop). apply IH, H2.
Qed.

Lemma runs_step (b b' : CanBus) cb tr :
  runs b (cb :: tr) b' ->
  exists b1, step b = Some b1 /\ runs b1 tr b'.
Proof.
  intros H. inversion H as [|? e b1 ? ? Hpop Hrest]; subst.
  eexists. split; [|exact Hrest].
  unfold Experiment1.step. rewrite Hpop. reflexivity.
Qed.

Lemma runs_iterate (b b' : CanBus) tr :
  runs b tr b' ->
  forall k, iterate (length tr + k) b = iterate k b' /\
            popped (length tr + k) b = tr ++ popped k b'.
Proof.
  induction 1 as [b | b e b1 tr b' Hpop _ IH]; intros k.
  - split; reflexivity.
  - cbn [length Nat.add Experiment1.iterate Experiment1.popped app].
    unfold Experiment1.step. rewrite Hpop.
    destruct (IH k) as [Hit Hpo]. split; [exact Hit|].
    f_equal. exact Hpo.
Qed.

(** *** One iteration of the loop, by pending callback *)

Local Ltac splits := repeat match goal with |- _ /\ _ => split end.

Lemma pending_step (b : CanBus) cb r a d :
  pending b cb r a d ->
  exists b',
    runs b [cb] b' /\
    match cb with
    | StartRound =>
        if r + 1 >? max_rounds then
          events b' = [] /\ rounds b' = r + 1 /\
          TEC (attacker b') = a /\ TEC (defender b') = d /\
          in_table (attacker b') /\ in_table (defender b')
        else pending b' HandleCollision (r + 1) a d
    | HandleCollision =>
        pending b' (if a + 8 <? 128 then HandleCollision else RecoverDefender)
          r (a + 8) (d + 8)
    | RecoverDefender =>
        0 < d ->
        pending b' (if d - 1 <? 128 then RecoverAttacker else RecoverDefender)
          r a (d - 1)
    | RecoverAttacker =>
        0 < a ->
        pending b' (if a - 1 <? 128 then StartRound else RecoverAttacker)
          r (a - 1) d
    end.
Proof.
  intros ((t & c & Hev) & Hr & Ha & Hd & Hta & Htd).
  eexists. split; [apply (runs_single _ _ _ _ Hev)|].
  set (b0 := record_history (set_time_us t (set_events [] b))).
  assert (Hev0 : events b0 = []) by reflexivity.
  assert (Hr0 : rounds b0 = rounds b) by reflexivity.
  assert (Ha0 : attacker b0 = attacker b) by reflexivity.
  assert (Hd0 : defender b0 = defender b) by reflexivity.
  clearbody b0.
  destruct cb; cbn [Experiment1.call].
  - destruct (start_round_spec b0) as (Ha' & Hd' & Hr' & Hev').
    rewrite Hev0, Hr0, Hr in Hev'. unfold pending.
    rewrite Ha', Hd', Hr', Hr0, Ha0, Hd0, Hr. revert Hev'.
    destruct (r + 1 >? max_rounds); intros Hev'; rewrite Hev'.
    + splits; try assumption; reflexivity.
    + splits; try assumption; try reflexivity. eexists _, _. reflexivity.
  - destruct (handle_collision_spec b0) as (Ha' & Hd' & Hr' & Hev').
    unfold pending. rewrite Hev', Ha', Hd', Hr', Hev0, Hr0, Ha0, Hd0, Hr.
    rewrite !collide_TEC, Ha, Hd.
    splits; try apply collide_in_table; try reflexivity.
    eexists _, _. reflexivity.
  - intros Hpos.
    destruct (recover_defender_spec b0) as (Ha' & Hd' & Hr' & Hev').
    unfold pending. rewrite Hev', Ha', Hd', Hr', Hev0, Hr0, Ha0, Hd0, Hr.
    rewrite succeed_TEC_pos, Hd by lia.
    splits; try assumption; try apply succeed_in_table; try reflexivity.
    eexists _, _. reflexivity.
  - intros Hpos.
    destruct (recover_attacker_spec b0) as (Ha' & Hd' & Hr' & Hev').
    unfold pending. rewrite Hev', Ha', Hd', Hr', Hev0, Hr0, Ha0, Hd0, Hr.
    rewrite succeed_TEC_pos, Ha by lia.
    splits; try assumption; try apply succeed_in_table; try reflexivity.
    eexists _, _. reflexivity.
Qed.

(** *** The three phases of a round *)

Lemma collision_phase (k : nat) : forall (b : CanBus) r a d,
  pending b HandleCollision r a d ->
  a + 8 * Z.of_nat k < 128 <= a + 8 * (Z.of_nat k + 1) ->
  exists b',
    runs b (repeat HandleCollision (S k)) b' /\
    pending b' RecoverDefender r
      (a + 8 * (Z.of_nat k + 1)) (d + 8 * (Z.of_nat k + 1)).
Proof.
  induction k as [|k IH]; intros b r a d Hp Hk;
    destruct (pending_step _ _ _ _ _ Hp) as (b1 & Hrun & Hnext).
  - destruct (Z.ltb_spec (a + 8) 128); [lia|].
    exists b1. split; [exact Hrun|].
    replace (a + 8 * (Z.of_nat 0 + 1)) with (a + 8) by lia.
    replace (d + 8 * (Z.of_nat 0 + 1)) with (d + 8) by lia.
    exact Hnext.
  - destruct (Z.ltb_spec (a + 8) 128); [|lia].
    destruct (IH _ _ _ _ Hnext) as (b' & Hrun' & Hp'); [lia|].
    exists b'. split.
    + apply (runs_app _ _ _ _ _ Hrun Hrun').
    + replace (a + 8 * (Z.of_nat (S k) + 1))
        with (a + 8 + 8 * (Z.of_nat k + 1)) by lia.
      replace (d + 8 * (Z.of_nat (S k) + 1))
        with (d + 8 + 8 * (Z.of_nat k + 1)) by lia.
      exact Hp'.
Qed.

Lemma defender_phase (k : nat) : forall (b : CanBus) r a d,
  pending b RecoverDefender r a d ->
  d = 128 + Z.of_nat k ->
  exists b',
    runs b (repeat RecoverDefender (S k)) b' /\
    pending b' RecoverAttacker r a 127.
Proof.
  induction k as [|k IH]; intros b r a d Hp Hk;
    destruct (pending_step _ _ _ _ _ Hp) as (b1 & Hrun & Hnext);
    specialize (Hnext ltac:(lia)).
  - destruct (Z.ltb_spec (d - 1) 128); [|lia].
    exists b1. split; [exact Hrun|].
    replace 127 with (d - 1) by lia. exact Hnext.
  - destruct (Z.ltb_spec (d - 1) 128); [lia|].
    destruct (IH _ _ _ _ Hnext) as (b' & Hrun' & Hp'); [lia|].
    exists b'. split; [|exact Hp'].
    apply (runs_app _ _ _ _ _ Hrun Hrun').
Qed.

Lemma attacker_phase (k : nat) : forall (b : CanBus) r a d,
  pending b RecoverAttacker r a d ->
  a = 128 + Z.of_nat k ->
  exists b',
    runs b (repeat RecoverAttacker (S k)) b' /\
    pending b' StartRound r 127 d.
Proof.
  induction k as [|k IH]; intros b r a d Hp Hk;
    destruct (pending_step _ _ _ _ _ Hp) as (b1 & Hrun & Hnext);
    specialize (Hnext ltac:(lia)).
  - destruct (Z.ltb_spec (a - 1) 128); [|lia].
    exists b1. split; [exact Hrun|].
    replace 127 with (a - 1) by lia. exact Hnext.
  - destruct (Z.ltb_spec (a - 1) 128); [lia|].
    destruct (IH _ _ _ _ Hnext) as (b' & Hrun' & Hp'); [lia|].
    exists b'. split; [|exact Hp'].
    apply (runs_app _ _ _ _ _ Hrun Hrun').
Qed.

(** *** Whole rounds *)

Lemma round_start_go (b : CanBus) r a d :
  pending b StartRound r a d ->
  r + 1 <= max_rounds ->
  exists b', runs b [StartRound] b' /\ pending b' HandleCollision (r + 1) a d.
Proof.
  intros Hp Hr.
  destruct (pending_step _ _ _ _ _ Hp) as (b1 & Hrun & Hnext).
  destruct (Z.gtb_spec (r + 1) max_rounds); [lia|].
  exists b1. split; assumption.
Qed.

Lemma first_round_runs (b : CanBus) r :
  pending b StartRound r 0 0 ->
  r + 1 <= max_rounds ->
  exists b', runs b first_round b' /\ pending b' StartRound (r + 1) 127 127.
Proof.
  intros Hp Hr.
  destruct (round_start_go _ _ _ _ Hp Hr) as (b1 & Hrun1 & Hp1).
  destruct (collision_phase 15 _ _ _ _ Hp1) as (b2 & Hrun2 & Hp2); [lia|].
  destruct (defender_phase 0 _ _ _ _ Hp2) as (b3 & Hrun3 & Hp3); [reflexivity|].
  destruct (attacker_phase 0 _ _ _ _ Hp3) as (b4 & Hrun4 & Hp4); [reflexivity|].
  exists b4. split; [|exact Hp4].
  exact (runs_app _ _ _ _ _ Hrun1
           (runs_app _ _ _ _ _ Hrun2 (runs_app _ _ _ _ _ Hrun3 Hrun4))).
Qed.

Lemma later_round_runs (b : CanBus) r :
  pending b StartRound r 127 127 ->
  r + 1 <= max_rounds ->
  exists b', runs b later_round b' /\ pending b' StartRound (r + 1) 127 127.
Proof.
  intros Hp Hr.
  destruct (round_start_go _ _ _ _ Hp Hr) as (b1 & Hrun1 & Hp1).
  destruct (collision_phase 0 _ _ _ _ Hp1) as (b2 & Hrun2 & Hp2); [lia|].
  destruct (defender_phase 7 _ _ _ _ Hp2) as (b3 & Hrun3 & Hp3); [reflexivity|].
  destruct (attacker_phase 7 _ _ _ _ Hp3) as (b4 & Hrun4 & Hp4); [reflexivity|].
  exists b4. split; [|exact Hp4].
  exact (runs_app _ _ _ _ _ Hrun1
           (runs_app _ _ _ _ _ Hrun2 (runs_app _ _ _ _ _ Hrun3 Hrun4))).
Qed.

Lemma later_rounds_run (k : nat) : forall (b : CanBus) r,
  pending b StartRound r 127 127 ->
  r + Z.of_nat k <= max_rounds ->
  exists b',
    runs b (concat (repeat later_round k)) b' /\
    pending b' StartRound (r + Z.of_nat k) 127 127.
Proof.
  induction k as [|k IH]; intros b r Hp Hr.
  - exists b. split; [apply runs_nil|].
    replace (r + Z.of_nat 0) with r by lia. exact Hp.
  - destruct (later_round_runs _ _ Hp) as (b1 & Hrun1 & Hp1); [lia|].
    destruct (IH _ _ Hp1) as (b' & Hrun' & Hp'); [lia|].
    exists b'. split.
    + cbn [repeat concat]. apply (runs_app _ _ _ _ _ Hrun1 Hrun').
    + replace (r + Z.of_nat (S k)) with (r + 1 + Z.of_nat k) by lia. exact Hp'.
Qed.

Lemma round_start_stop (b : CanBus) r a d :
  pending b StartRound r a d ->
  max_rounds < r + 1 ->
  exists b',
    runs b [StartRound] b' /\
    events b' = [] /\ rounds b' = r + 1 /\
    TEC (attacker b') = a /\ TEC (defender b') = d /\
    in_table (attacker b') /\ in_table (defender b').
Proof.
  intros Hp Hr.
  destruct (pending_step _ _ _ _ _ Hp) as (b1 & Hrun & Hnext).
  destruct (Z.gtb_spec (r + 1) max_rounds); [|lia].
  exists b1. split; assumption.
Qed.

Lemma pending_execute_start : pending execute_start StartRound 0 0 0.
Proof.
  unfold pending. split; [eexists _, _; reflexivity|].
  repeat split; intros; try discriminate; try reflexivity; cbn in *; lia.
Qed.

(** *** The whole run *)

Lemma halted_iterate (b : CanBus) k :
  events b = [] -> iterate k b = b /\ popped k b = [].
Proof.
  intros Hev.
  assert (Hpop : pop_event b = None).
  { unfold pop_event. rewrite Hev. reflexivity. }
  destruct k; cbn [Experiment1.iterate Experiment1.popped];
    [split; reflexivity|].
  unfold Experiment1.step. rewrite Hpop. split; reflexivity.
Qed.

Lemma full_run :
  1 <= max_rounds ->
  exists final,
    runs execute_start
      (first_round ++
       concat (repeat later_round (Z.to_nat (max_rounds - 1))) ++ [StartRound])
      final /\
    events final = [] /\ rounds final = max_rounds + 1 /\
    TEC (attacker final) = 127 /\ TEC (defender final) = 127 /\
    in_table (attacker final) /\ in_table (defender final).
Proof.
  intros Hn.
  destruct (first_round_runs _ _ pending_execute_start) as (b1 & Hrun1 & Hp1);
    [lia|].
  destruct (later_rounds_run (Z.to_nat (max_rounds - 1)) _ _ Hp1)
    as (b2 & Hrun2 & Hp2); [lia|].
  destruct (round_start_stop _ _ _ _ Hp2) as (b3 & Hrun3 & Hfinal); [lia|].
  exists b3. split.
  - apply (runs_app _ _ _ _ _ Hrun1). apply (runs_app _ _ _ _ _ Hrun2 Hrun3).
  - replace (max_rounds + 1)
      with (0 + 1 + Z.of_nat (Z.to_nat (max_rounds - 1)) + 1) by lia.
    exact Hfinal.
Qed.

Lemma full_run_length :
  1 <= max_rounds ->
  Z.of_nat (length (first_round ++
     concat (repeat later_round (Z.to_nat (max_rounds - 1))) ++ [StartRound]))
  = 18 * max_rounds + 2.
Proof.
  intros Hn. rewrite !length_app.
  assert (Hk : forall k, length (concat (repeat later_round k)) = (18 * k)%nat).
  { induction k as [|k IH]; [reflexivity|].
    cbn [repeat concat]. rewrite length_app, IH. cbn [later_round length repeat app].
    lia. }
  rewrite Hk. cbn [first_round length repeat app]. lia.
Qed.

(** *** The counters stay in their phase *)

Lemma runs_one (b b' : CanBus) cb : runs b [cb] b' -> step b = Some b'.
Proof.
  intros H. apply runs_step in H as (b1 & Hstep & Hrest).
  inversion Hrest; subst. exact Hstep.
Qed.

Lemma pending_round_inv (b : CanBus) cb r a d :
  pending b cb r a d -> phase_ok cb a d -> round_inv b.
Proof.
  intros ((t & c & Hev) & _ & Ha & Hd & Hta & Htd) Hok.
  unfold round_inv. rewrite Hev, Ha, Hd. splits; assumption.
Qed.

Lemma round_inv_step (b b' : CanBus) :
  round_inv b -> step b = Some b' -> round_inv b'.
Proof.
  intros (Hta & Htd & Hphase) Hstep.
  destruct (events b) as [|[[t c] cb] [|e' evs]] eqn:Hev.
  - unfold Experiment1.step, pop_event in Hstep. rewrite Hev in Hstep.
    discriminate.
  - cbn [callback snd] in Hphase.
    assert (Hp : pending b cb (rounds b) (TEC (attacker b)) (TEC (defender b))).
    { unfold pending. rewrite Hev. splits; try assumption; try reflexivity.
      eexists _, _. reflexivity. }
    destruct (pending_step _ _ _ _ _ Hp) as (b1 & Hrun & Hnext).
    apply runs_one in Hrun. rewrite Hrun in Hstep. inversion Hstep; subst b1.
    clear Hstep Hrun Hp Hev.
    destruct cb; cbn [phase_ok] in Hphase.
    + destruct (rounds b + 1 >? max_rounds).
      * destruct Hnext as (Hev' & _ & Ha' & Hd' & Hta' & Htd').
        unfold round_inv. rewrite Hev', Ha', Hd'. splits; try assumption; lia.
      * apply (pending_round_inv _ _ _ _ _ Hnext). exact Hphase.
    + apply (pending_round_inv _ _ _ _ _ Hnext).
      destruct (Z.ltb_spec (TEC (attacker b) + 8) 128); cbn [phase_ok]; lia.
    + specialize (Hnext ltac:(lia)).
      apply (pending_round_inv _ _ _ _ _ Hnext).
      destruct (Z.ltb_spec (TEC (defender b) - 1) 128); cbn [phase_ok]; lia.
    + specialize (Hnext ltac:(lia)).
      apply (pending_round_inv _ _ _ _ _ Hnext).
      destruct (Z.ltb_spec (TEC (attacker b) - 1) 128); cbn [phase_ok]; lia.
  - destruct Hphase.
Qed.

Lemma round_inv_iterate n : forall b : CanBus,
  round_inv b -> round_inv (iterate n b).
Proof.
  induction n as [|n IH]; intros b H; cbn [Experiment1.iterate].
  - exact H.
  - destruct (step b) as [b'|] eqn:Hstep; [|exact H].
    apply IH. apply (round_inv_step _ _ H Hstep).
Qed.

Lemma round_inv_execute_start : round_inv execute_start.
Proof.
  apply (pending_round_inv _ _ _ _ _ pending_execute_start).
  cbn [phase_ok]. lia.
Qed.

Lemma round_inv_bounds (b : CanBus) :
  round_inv b ->
  TEC (attacker b) <= 135 /\ TEC (defender b) <= 135 /\
  (forall t c, In (t, c, StartRound) (events b) ->
               TEC (attacker b) <= 127 /\ TEC (defender b) <= 127).
Proof.
  intros (_ & _ & Hphase).
  destruct (events b) as [|[[t c] cb] [|e' evs]]; [| |destruct Hphase].
  - splits; [lia | lia | intros t c Hin; destruct Hin].
  - cbn [callback snd] in Hphase.
    destruct cb; cbn [phase_ok] in Hphase; splits; try lia;
      intros t' c' [Heq | []]; try discriminate Heq; lia.
Qed.

Lemma call_schedules_next (cb : Callback) (b : CanBus) :
  cb <> StartRound -> events (call cb b) <> [].
Proof.
  intros Hcb Hnil. destruct cb; [contradiction| | |]; cbn [Experiment1.call] in Hnil.
  - rewrite (proj2 (proj2 (proj2 (handle_collision_spec b)))) in Hnil.
    apply app_eq_nil in Hnil as [_ Hnil]. discriminate.
  - rewrite (proj2 (proj2 (proj2 (recover_defender_spec b)))) in Hnil.
    apply app_eq_nil in Hnil as [_ Hnil]. discriminate.
  - rewrite (proj2 (proj2 (proj2 (recover_attacker_spec b)))) in Hnil.
    apply app_eq_nil in Hnil as [_ Hnil]. discriminate.
Qed.

End Rounds.

End Experiment1Facts.

(** C7.  For every round limit of at least 1, the two-node scenario runs
    to completion, and at no point of the run does the error counter of
    the attacker or of the defender reach 256: neither node is ever in
    BUS_OFF.  Whenever a round start is pending, that is at the end of
    each round, both nodes are ACTIVE, and so they are when the run ends. *)
Theorem collision_spiral_never_bus_off (max_rounds : Z) :
  1 <= max_rounds ->
  (forall n,
     let b := Experiment1.iterate max_rounds n Experiment1.execute_start in
     TEC (attacker b) < 256 /\ TEC (defender b) < 256 /\
     state (attacker b) <> BUS_OFF /\ state (defender b) <> BUS_OFF /\
     (forall t c, In (t, c, Experiment1.StartRound) (events b) ->
                  state (attacker b) = ACTIVE /\ state (defender b) = ACTIVE)) /\
  (exists fuel final,
     Experiment1.execute max_rounds fuel = Some final /\
     state (attacker final) = ACTIVE /\ state (defender final) = ACTIVE).
Proof.
  intros Hn. split.
  - intros n b.
    pose proof (Experiment1Facts.round_inv_iterate max_rounds n _
                  Experiment1Facts.round_inv_execute_start) as Hinv.
    fold b in Hinv.
    destruct (Experiment1Facts.round_inv_bounds _ Hinv) as (Ha & Hd & Hstart).
    destruct Hinv as (Hta & Htd & _).
    split; [lia|]. split; [lia|]. split; [|split].
    + intros Hoff. apply Hta in Hoff. lia.
    + intros Hoff. apply Htd in Hoff. lia.
    + intros t c Hin. destruct (Hstart t c Hin) as [Ha' Hd'].
      split; apply in_table_active; assumption || lia.
  - destruct (Experiment1Facts.full_run max_rounds Hn)
      as (final & Hrun & Hev & _ & Ha & Hd & Hta & Htd).
    eexists _, final. split.
    + unfold Experiment1.execute.
      destruct (Experiment1Facts.runs_iterate _ _ _ _ Hrun 0) as [Hit _].
      rewrite Hit. cbn [Experiment1.iterate]. rewrite Hev. reflexivity.
    + split; apply in_table_active; assumption || lia.
Qed.

Lemma collision_spiral_never_bus_off_witness :
  (forall n,
     let b := Experiment1.iterate MAX_ROUNDS n Experiment1.execute_start in
     TEC (attacker b) < 256 /\ TEC (defender b) < 256 /\
     state (attacker b) <> BUS_OFF /\ state (defender b) <> BUS_OFF /\
     (forall t c, In (t, c, Experiment1.StartRound) (events b) ->
                  state (attacker b) = ACTIVE /\ state (defender b) = ACTIVE)) /\
  (exists fuel final,
     Experiment1.execute MAX_ROUNDS fuel = Some final /\
     state (attacker final) = ACTIVE /\ state (defender final) = ACTIVE).
Proof.
  apply (collision_spiral_never_bus_off MAX_ROUNDS).
  unfold MAX_ROUNDS. lia.
Defined.

(** C9.  For every round limit [N] of at least 1, the callbacks run by the
    two-node scenario are those of [N] complete rounds (the first one from
    counters 0, the others from counters 127), each with its collisions, its
    defender recoveries and its attacker recoveries, followed by one more
    round start, which finds the limit exceeded and schedules nothing: the
    run takes [18 * N + 2] iterations and ends with the round counter at
    [N + 1].  The limit is tested nowhere else: every other callback leaves
    an entry pending, so the run cannot stop inside a round. *)
Theorem round_limit_checked_at_round_start (max_rounds : Z) :
  1 <= max_rounds ->
  let tr := Experiment1Runs.first_round ++
            concat (repeat Experiment1Runs.later_round
                      (Z.to_nat (max_rounds - 1))) ++
            [Experiment1.StartRound] in
  (forall k,
     Experiment1.popped max_rounds (length tr + k) Experiment1.execute_start
       = tr) /\
  Z.of_nat (length tr) = 18 * max_rounds + 2 /\
  (exists final,
     Experiment1.execute max_rounds (length tr) = Some final /\
     rounds final = max_rounds + 1) /\
  (forall cb b,
     cb <> Experiment1.StartRound ->
     events (Experiment1.call max_rounds cb b) <> []).
Proof.
  intros Hn tr.
  destruct (Experiment1Facts.full_run max_rounds Hn)
    as (final & Hrun & Hev & Hrounds & _).
  fold tr in Hrun.
  split; [|split; [|split]].
  - intros k.
    destruct (Experiment1Facts.runs_iterate _ _ _ _ Hrun k) as [_ Hpo].
    rewrite Hpo.
    rewrite (proj2 (Experiment1Facts.halted_iterate max_rounds _ k Hev)).
    apply app_nil_r.
  - apply Experiment1Facts.full_run_length, Hn.
  - exists final. split; [|exact Hrounds].
    unfold Experiment1.execute.
    destruct (Experiment1Facts.runs_iterate _ _ _ _ Hrun 0) as [Hit _].
    rewrite Nat.add_0_r in Hit. rewrite Hit.
    cbn [Experiment1.iterate]. rewrite Hev. reflexivity.
  - intros cb b. apply Experiment1Facts.call_schedules_next.
Qed.

Lemma round_limit_checked_at_round_start_witness :
  let tr := Experiment1Runs.first_round ++
            concat (repeat Experiment1Runs.later_round 2) ++
            [Experiment1.StartRound] in
  (forall k,
     Experiment1.popped MAX_ROUNDS (length tr + k) Experiment1.execute_start
       = tr) /\
  Z.of_nat (length tr) = 56 /\
  (exists final,
     Experiment1.execute MAX_ROUNDS (length tr) = Some final /\
     rounds final = 4) /\
  (forall cb b,
     cb <> Experiment1.StartRound ->
     events (Experiment1.call MAX_ROUNDS cb b) <> []).
Proof.
  apply (round_limit_checked_at_round_start MAX_ROUNDS).
  unfold MAX_ROUNDS. lia.
Defined.

(* ===================================================================== *)
(** * The assisted bus-off race *)
(* ===================================================================== *)

Module Experiment3Facts.
Import Experiment3.

Lemma iterate_add (n k : nat) : forall self : CanBus,
  iterate (n + k) self = iterate k (iterate n self).
Proof.
  induction n as [|n IH]; intros self; cbn [Nat.add iterate].
  - reflexivity.
  - destruct (step self) as [self'|] eqn:Hstep; [apply IH|].
    destruct k; cbn [iterate]; [reflexivity|]. rewrite Hstep. reflexivity.
Qed.

Lemma popped_add (n k : nat) : forall self : CanBus,
  length (popped n self) = n ->
  popped (n + k) self = popped n self ++ popped k (iterate n self).
Proof.
  induction n as [|n IH]; intros self Hn; cbn [Nat.add iterate popped] in *.
  - reflexivity.
  - destruct (pop_event (base self)) as [[e b1]|]; [|discriminate].
    destruct (step self) as [self'|]; [|discriminate].
    cbn [app]. f_equal. apply IH. cbn [length] in Hn. congruence.
Qed.

Lemma halted_iterate3 (self : CanBus) (k : nat) :
  step self = None -> iterate k self = self /\ popped k self = [].
Proof.
  intros Hstep. destruct k; cbn [iterate popped]; [split; reflexivity|].
  rewrite Hstep. split; [reflexivity|].
  destruct (pop_event (base self)) as [[e b1]|]; reflexivity.
Qed.

(** The loop condition fails on a bus whose attacker is in BUS_OFF,
    whatever is pending. *)
Lemma bus_off_stops (self : CanBus) :
  state (attacker (base self)) = BUS_OFF ->
  running self = false /\ step self = None.
Proof.
  intros Hoff.
  assert (Hrun : running self = false).
  { unfold running. rewrite Hoff. destruct (events (base self)); reflexivity. }
  split; [exact Hrun|]. unfold step. rewrite Hrun. reflexivity.
Qed.

(** The two sends scheduled at time 0 and the collision the first one
    schedules, also at time 0, run in the order they were scheduled. *)
Example simultaneous_sends :
  popped 3 execute_start = [SendAttack; AssistantSend; HandleCollision] /\
  hist_time (history (base (iterate 3 execute_start))) = [0; 0; 0].
Proof. split; reflexivity. Qed.

End Experiment3Facts.

(** C8.  With the parameters of the source ([GAP_US] = 31,
    [ASSISTANT_GAP_US] = 200, [ATTACKER_PERIOD_US] = 1000000) the
    three-node scenario ends after exactly 39 popped events, whatever fuel
    beyond that is given, with the attacker's counter at 256 and its state
    BUS_OFF.  The attacker is not in BUS_OFF before the 39th event, and
    the loop stops right after it although two entries are still pending
    (the attacker's next spoof and the assistant's next message): the loop
    condition fails on every bus whose attacker is in BUS_OFF. *)
Theorem assisted_scenario_bus_off :
  exists final,
    (forall k,
       Experiment3.execute (39 + k) = Some final /\
       length (Experiment3.popped (39 + k) Experiment3.execute_start) = 39%nat) /\
    TEC (attacker (Experiment3.base final)) = 256 /\
    256 <= TEC (attacker (Experiment3.base final)) /\
    state (attacker (Experiment3.base final)) = BUS_OFF /\
    events (Experiment3.base final) =
      [(1000000, 3, Experiment3.SendAttack);
       (1000, 35, Experiment3.AssistantSend)] /\
    Forall (fun k =>
              state (attacker (Experiment3.base
                       (Experiment3.iterate k Experiment3.execute_start)))
              <> BUS_OFF)
           (seq 0 39) /\
    (forall self,
       state (attacker (Experiment3.base self)) = BUS_OFF ->
       Experiment3.running self = false /\ Experiment3.step self = None).
Proof.
  set (final := Experiment3.iterate 39 Experiment3.execute_start).
  assert (Hoff : state (attacker (Experiment3.base final)) = BUS_OFF)
    by (vm_compute; reflexivity).
  destruct (Experiment3Facts.bus_off_stops final Hoff) as [Hrun Hstep].
  exists final. split; [|split; [|split; [|split; [|split; [|split]]]]].
  - intros k.
    destruct (Experiment3Facts.halted_iterate3 final k Hstep) as [Hit Hpops].
    split.
    + unfold Experiment3.execute.
      rewrite Experiment3Facts.iterate_add. fold final. rewrite Hit, Hrun.
      reflexivity.
    + rewrite Experiment3Facts.popped_add by (vm_compute; reflexivity).
      fold final. rewrite Hpops, app_nil_r. vm_compute. reflexivity.
  - vm_compute. reflexivity.
  - vm_compute. discriminate.
  - exact Hoff.
  - vm_compute. reflexivity.
  - repeat (constructor; [vm_compute; discriminate|]). constructor.
  - apply Experiment3Facts.bus_off_stops.
Qed.

Lemma assisted_scenario_bus_off_witness :
  Experiment3.step
    (Experiment3.mkCanBus
       (set_attacker (mkCanNode "[E] ATTACKER" 256 BUS_OFF)
          (schedule 0 Experiment3.AssistantSend CanBusBase_init))
       (CanNode_init "[C] ASSISTANT") [])
  = None.
Proof.
  destruct assisted_scenario_bus_off as (final & _ & _ & _ & _ & _ & _ & Hstop).
  apply Hstop. reflexivity.
Defined.

(* ===================================================================== *)
(** * Further properties of the node state machine *)
(* ===================================================================== *)

Lemma in_table_state_unique (n m : CanNode) :
  in_table n -> in_table m -> TEC n = TEC m -> state n = state m.
Proof.
  intros (Hoff & Hpas & Hact) (Hoff' & Hpas' & Hact') Heq.
  destruct (Z.lt_ge_cases (TEC n) 128) as [H1|H1].
  - rewrite (proj1 Hact H1). symmetry. apply Hact'. lia.
  - destruct (Z.lt_ge_cases (TEC n) 256) as [H2|H2].
    + rewrite (proj1 Hpas (conj H1 H2)). symmetry. apply Hpas'. lia.
    + rewrite (proj1 Hoff H2). symmetry. apply Hoff'. lia.
Qed.

Lemma in_table_severity (n : CanNode) :
  in_table n ->
  severity (state n) =
    if TEC n <? 128 then 0 else if TEC n <? 256 then 1 else 2.
Proof.
  intros (Hoff & Hpas & Hact).
  destruct (Z.ltb_spec (TEC n) 128) as [H1|H1].
  - rewrite (proj1 Hact H1). reflexivity.
  - destruct (Z.ltb_spec (TEC n) 256) as [H2|H2].
    + rewrite (proj1 Hpas (conj H1 H2)). reflexivity.
    + rewrite (proj1 Hoff H2). reflexivity.
Qed.

Lemma collide_name n : name (collide n) = name n.
Proof. unfold collide. rewrite update_state_name. reflexivity. Qed.

Lemma succeed_name n : name (succeed n) = name n.
Proof.
  unfold succeed. rewrite update_state_name.
  destruct (TEC n >? 0); reflexivity.
Qed.

Lemma iter_succeed_TEC (k : nat) : forall n,
  Z.of_nat k <= TEC n -> TEC (Nat.iter k succeed n) = TEC n - Z.of_nat k.
Proof.
  induction k as [|k IH]; intros n Hk.
  - cbn [Nat.iter nat_rect]. lia.
  - rewrite Nat.iter_succ_r, IH.
    + rewrite succeed_TEC_pos by lia. lia.
    + rewrite succeed_TEC_pos by lia. lia.
Qed.

Lemma iter_succeed_name (k : nat) : forall n,
  name (Nat.iter k succeed n) = name n.
Proof.
  induction k as [|k IH]; intros n.
  - reflexivity.
  - rewrite Nat.iter_succ, succeed_name. apply IH.
Qed.

Lemma iter_collide_in_table (k : nat) (nm : string) :
  in_table (Nat.iter k collide (CanNode_init nm)).
Proof.
  destruct k as [|k].
  - cbn. unfold in_table. cbn. repeat split; intros; try lia; try discriminate.
  - rewrite Nat.iter_succ. apply collide_in_table.
Qed.

Lemma CanNode_eq (n m : CanNode) :
  name n = name m -> TEC n = TEC m -> state n = state m -> n = m.
Proof. destruct n, m. cbn. intros -> -> ->. reflexivity. Qed.

(** X1.  On a node whose state agrees with its counter, [collide] never
    moves the state towards normal operation and [succeed] never moves it
    away from it. *)
Theorem severity_monotone (n : CanNode) :
  in_table n ->
  severity (state n) <= severity (state (collide n)) /\
  severity (state (succeed n)) <= severity (state n).
Proof.
  intros Hn.
  rewrite (in_table_severity _ Hn).
  rewrite (in_table_severity _ (collide_in_table n)), collide_TEC.
  rewrite (in_table_severity _ (succeed_in_table n)).
  assert (Hs : TEC (succeed n) <= TEC n).
  { destruct (Z.lt_ge_cases 0 (TEC n)).
    - rewrite succeed_TEC_pos by assumption. lia.
    - rewrite succeed_TEC_nonpos by lia. lia. }
  split.
  - destruct (Z.ltb_spec (TEC n) 128), (Z.ltb_spec (TEC n + 8) 128),
      (Z.ltb_spec (TEC n) 256), (Z.ltb_spec (TEC n + 8) 256); lia.
  - destruct (Z.ltb_spec (TEC n) 128), (Z.ltb_spec (TEC (succeed n)) 128),
      (Z.ltb_spec (TEC n) 256), (Z.ltb_spec (TEC (succeed n)) 256); lia.
Qed.

Lemma severity_monotone_witness :
  severity (state (mkCanNode "[E] ATTACKER" 120 ACTIVE))
    <= severity (state (collide (mkCanNode "[E] ATTACKER" 120 ACTIVE))) /\
  severity (state (succeed (mkCanNode "[E] ATTACKER" 120 ACTIVE)))
    <= severity (state (mkCanNode "[E] ATTACKER" 120 ACTIVE)).
Proof.
  apply (severity_monotone (mkCanNode "[E] ATTACKER" 120 ACTIVE)).
  unfold in_table. cbn [TEC state].
  split; [|split]; split; intros; try lia; try discriminate; reflexivity.
Defined.

(** X2.  Eight successful transmissions undo one collision: on a node
    whose counter is not negative and whose state agrees with it, [collide]
    followed by eight calls of [succeed] gives the node back, name, counter
    and state. *)
Theorem eight_successes_undo_collision (n : CanNode) :
  in_table n ->
  0 <= TEC n ->
  Nat.iter 8 succeed (collide n) = n.
Proof.
  intros Hn Hpos.
  assert (Htec : TEC (Nat.iter 8 succeed (collide n)) = TEC n).
  { rewrite iter_succeed_TEC; rewrite collide_TEC; cbn; lia. }
  apply CanNode_eq.
  - rewrite iter_succeed_name. apply collide_name.
  - exact Htec.
  - apply in_table_state_unique; [|exact Hn|exact Htec].
    change 8%nat with (S 7). rewrite Nat.iter_succ. apply succeed_in_table.
Qed.

Lemma eight_successes_undo_collision_witness :
  Nat.iter 8 succeed (collide (mkCanNode "[A] DEFENDER" 127 ACTIVE))
  = mkCanNode "[A] DEFENDER" 127 ACTIVE.
Proof.
  apply (eight_successes_undo_collision (mkCanNode "[A] DEFENDER" 127 ACTIVE)).
  - unfold in_table. cbn [TEC state].
    split; [|split]; split; intros; try lia; try discriminate; reflexivity.
  - cbn. lia.
Defined.

(** X3.  Starting from a fresh node, the state after [k] collisions is
    ACTIVE exactly for [k < 16], ERROR_PASSIVE exactly for [16 <= k < 32]
    and BUS_OFF exactly from the 32nd collision on. *)
Theorem collisions_to_thresholds (nm : string) (k : nat) :
  let n := Nat.iter k collide (CanNode_init nm) in
  (state n = ACTIVE <-> (k < 16)%nat) /\
  (state n = ERROR_PASSIVE <-> (16 <= k < 32)%nat) /\
  (state n = BUS_OFF <-> (32 <= k)%nat).
Proof.
  intros n.
  destruct (iter_collide_in_table k nm) as (Hoff & Hpas & Hact). fold n in Hoff, Hpas, Hact.
  assert (Htec : TEC n = 8 * Z.of_nat k).
  { unfold n. rewrite iter_collide_TEC. cbn. lia. }
  rewrite <- Hact, <- Hpas, <- Hoff, Htec.
  split; [|split]; lia.
Qed.

(** X4.  BUS_OFF is not latched by the node: after [succeed] the state is
    BUS_OFF only if the counter was at least 257 before; from a counter of
    exactly 256 one [succeed] brings the node back to ERROR_PASSIVE at 255. *)
Theorem bus_off_not_latched (n : CanNode) :
  (state (succeed n) = BUS_OFF <-> 257 <= TEC n) /\
  (TEC n = 256 ->
   TEC (succeed n) = 255 /\ state (succeed n) = ERROR_PASSIVE).
Proof.
  destruct (succeed_in_table n) as (Hoff & Hpas & Hact).
  split.
  - rewrite <- Hoff.
    destruct (Z.lt_ge_cases 0 (TEC n)).
    + rewrite succeed_TEC_pos by assumption. lia.
    + rewrite succeed_TEC_nonpos by lia. lia.
  - intros H256.
    assert (Ht : TEC (succeed n) = 255) by (rewrite succeed_TEC_pos; lia).
    split; [exact Ht|]. apply Hpas. lia.
Qed.

Lemma bus_off_not_latched_witness :
  TEC (succeed (mkCanNode "[E] ATTACKER" 256 BUS_OFF)) = 255 /\
  state (succeed (mkCanNode "[E] ATTACKER" 256 BUS_OFF)) = ERROR_PASSIVE.
Proof.
  apply (proj2 (bus_off_not_latched (mkCanNode "[E] ATTACKER" 256 BUS_OFF))).
  reflexivity.
Defined.

(* ===================================================================== *)
(** * Further properties of the scheduler *)
(* ===================================================================== *)

Section ForwardFacts.

Context {CB : Type}.
Implicit Types (e x y : Event CB) (l Sc P : list (Event CB)) (b : CanBusBase CB).

Lemma reach_forward_reach Sc P b : reach_forward Sc P b -> reach Sc P b.
Proof.
  induction 1 as [ | Sc P b d cb _ IH _ | Sc P b e b' _ IH Hpop
                 | Sc P b b' _ IH Hsame ].
  - apply reach_init.
  - apply reach_schedule, IH.
  - apply (reach_pop _ _ _ _ _ IH Hpop).
  - apply (reach_frame _ _ _ _ IH Hsame).
Qed.

Lemma StronglySorted_snoc {A : Type} (R : A -> A -> Prop) (u : list A) (a : A) :
  StronglySorted R u -> Forall (fun z => R z a) u -> StronglySorted R (u ++ [a]).
Proof.
  induction u as [|z u IH]; intros Hs Hall; cbn [app].
  - repeat constructor.
  - inversion Hs as [|? ? Hs' Hz]; subst.
    inversion Hall as [|? ? Hza Hall']; subst.
    constructor; [apply IH; assumption|].
    apply Forall_app. split; [exact Hz|]. repeat constructor. exact Hza.
Qed.

Lemma reach_NoDup Sc P b : reach Sc P b -> NoDup (P ++ events b).
Proof.
  intros Hr. destruct (reach_bookkeeping _ _ _ Hr) as (Hn & _ & Hp).
  apply (Permutation_NoDup Hp).
  apply (NoDup_map_inv order), numbered_NoDup, Hn.
Qed.

(** What holds of the popped and of the pending entries in a forward
    history. *)
Lemma forward_order Sc P b :
  reach_forward Sc P b ->
  StronglySorted key_lt P /\
  Forall (fun p => fire p <= time_us b) P /\
  Forall (fun q => time_us b <= fire q) (events b) /\
  (forall p q, In p P -> In q (events b) -> key_lt p q).
Proof.
  induction 1 as [ | Sc P b d cb Hf (Hs & Hpast & Hfut & Hcross) Hd
                   | Sc P b e b' Hf (Hs & Hpast & Hfut & Hcross) Hpop
                   | Sc P b b' Hf (Hs & Hpast & Hfut & Hcross) (Ht & Hev & _) ].
  - split; [constructor|]. split; [constructor|]. split; [constructor|].
    intros p q Hp. destruct Hp.
  - pose proof (reach_forward_reach _ _ _ Hf) as Hr.
    destruct (reach_bookkeeping _ _ _ Hr) as (Hn & Hc & Hp).
    split; [exact Hs|]. split; [exact Hpast|]. split.
    + cbn [schedule events time_us]. unfold heappush.
      apply Forall_app. split; [exact Hfut|].
      repeat constructor. cbn [fire fst]. lia.
    + cbn [schedule events]. unfold heappush. intros p q Hp' Hq.
      apply in_app_or in Hq as [Hq | [<- | []]]; [apply Hcross; assumption|].
      assert (HpSc : In p Sc).
      { apply (Permutation_in p (Permutation_sym Hp)), in_or_app.
        left. exact Hp'. }
      pose proof (numbered_bound _ _ Hn HpSc) as Hb.
      rewrite Forall_forall in Hpast. specialize (Hpast _ Hp').
      unfold key_lt. cbn [fire order fst snd]. lia.
  - pose proof (reach_forward_reach _ _ _ Hf) as Hr.
    pose proof (reach_pending_orders _ _ _ Hr) as Hnd.
    apply pop_event_inv in Hpop as (rest & Hpop & ->).
    pose proof (heappop_perm _ _ _ Hpop) as Hperm.
    pose proof (heappop_least _ _ _ Hpop) as Hleast.
    assert (He : In e (events b)).
    { apply (Permutation_in e (Permutation_sym Hperm)). left. reflexivity. }
    assert (Hbefore : Forall (fun p => key_lt p e) P).
    { apply Forall_forall. intros p Hp. apply Hcross; assumption. }
    apply (Permutation_NoDup (Permutation_map order Hperm)) in Hnd.
    cbn [map] in Hnd. inversion Hnd as [|? ? Hnotin _]; subst.
    cbn [set_time_us set_events time_us events].
    split; [apply StronglySorted_snoc; assumption|]. split; [|split].
    + apply Forall_app. split.
      * revert Hbefore. apply Forall_impl. unfold key_lt. intros p Hp. lia.
      * repeat constructor. lia.
    + revert Hleast. apply Forall_impl. intros q Hq.
      apply event_ltb_false_iff in Hq. lia.
    + intros p q Hp Hq.
      assert (Hq' : In q (events b)).
      { apply (Permutation_in q (Permutation_sym Hperm)). right. exact Hq. }
      apply in_app_or in Hp as [Hp | [<- | []]]; [apply Hcross; assumption|].
      rewrite Forall_forall in Hleast. specialize (Hleast _ Hq).
      apply event_ltb_false_iff in Hleast.
      assert (Hne : order q <> order e).
      { intros Heq. apply Hnotin. rewrite <- Heq. apply in_map, Hq. }
      unfold key_lt. lia.
  - rewrite Ht, Hev. repeat split; assumption.
Qed.

End ForwardFacts.

(** X5.  In every history of the scheduler no entry is lost and none runs
    twice: the entries pushed are, up to order, the popped ones together
    with the pending ones, no entry occurs twice among these, and the
    insertion counter is the number of calls of [schedule] so far. *)
Theorem events_conserved {CB : Type} (Sc P : list (Event CB)) (b : CanBusBase CB) :
  reach Sc P b ->
  Permutation Sc (P ++ events b) /\
  NoDup (P ++ events b) /\
  counter b = Z.of_nat (length Sc) /\
  (length P + length (events b) = length Sc)%nat.
Proof.
  intros Hr. destruct (reach_bookkeeping _ _ _ Hr) as (Hn & Hc & Hp).
  split; [exact Hp|]. split; [apply (reach_NoDup _ _ _ Hr)|].
  split; [exact Hc|].
  rewrite <- length_app. symmetry. apply Permutation_length, Hp.
Qed.

Lemma events_conserved_witness :
  let b := schedule 0 Experiment3.AssistantSend
             (schedule 0 Experiment3.SendAttack CanBusBase_init) in
  counter b = 2 /\ (0 + length (events b) = 2)%nat.
Proof.
  pose (b0 := @CanBusBase_init Experiment3.Callback).
  pose (b1 := schedule 0 Experiment3.SendAttack b0).
  pose (b2 := schedule 0 Experiment3.AssistantSend b1).
  pose (A := ((0, 0, Experiment3.SendAttack) : Event Experiment3.Callback)).
  pose (B := ((0, 1, Experiment3.AssistantSend) : Event Experiment3.Callback)).
  assert (H2 : reach [A; B] [] b2).
  { exact (reach_schedule _ _ b1 0 Experiment3.AssistantSend
             (reach_schedule _ _ b0 0 Experiment3.SendAttack reach_init)). }
  destruct (events_conserved [A; B] [] b2 H2) as (_ & _ & Hc & Hlen).
  split; [exact Hc | exact Hlen].
Defined.

(** X6.  When [schedule] is only called with delays that are not negative,
    the run loop pops the entries in strictly increasing order of
    [(fire time, sequence number)]: no popped entry lies after the clock,
    and every pending entry comes after every popped one. *)
Theorem execution_order_sorted {CB : Type} (Sc P : list (Event CB))
    (b : CanBusBase CB) :
  reach_forward Sc P b ->
  StronglySorted key_lt P /\
  Forall (fun p => fire p <= time_us b) P /\
  (forall p q, In p P -> In q (events b) -> key_lt p q).
Proof.
  intros Hf. destruct (forward_order _ _ _ Hf) as (Hs & Hpast & _ & Hcross).
  split; [exact Hs|]. split; assumption.
Qed.

Lemma execution_order_sorted_witness :
  StronglySorted key_lt
    [(0, 0, Experiment3.SendAttack); (0, 1, Experiment3.AssistantSend)].
Proof.
  pose (b0 := @CanBusBase_init Experiment3.Callback).
  pose (b1 := schedule 0 Experiment3.SendAttack b0).
  pose (b2 := schedule 0 Experiment3.AssistantSend b1).
  pose (A := ((0, 0, Experiment3.SendAttack) : Event Experiment3.Callback)).
  pose (B := ((0, 1, Experiment3.AssistantSend) : Event Experiment3.Callback)).
  pose (b3 := set_time_us 0 (set_events [B] b2)).
  pose (b4 := set_time_us 0 (set_events [] b3)).
  assert (H2 : reach_forward [A; B] [] b2).
  { exact (forward_schedule _ _ b1 0 Experiment3.AssistantSend
             (forward_schedule _ _ b0 0 Experiment3.SendAttack forward_init
                (Z.le_refl 0))
             (Z.le_refl 0)). }
  assert (H4 : reach_forward [A; B] [A; B] b4).
  { exact (forward_pop _ _ b3 B b4 (forward_pop _ _ b2 A b3 H2 eq_refl) eq_refl). }
  exact (proj1 (execution_order_sorted [A; B] [A; B] b4 H4)).
Defined.

Section ForwardHistoryFacts.

Context {CB : Type}.
Implicit Types (b : CanBusBase CB) (P : list (Event CB)).

Lemma forward_history_of_init : forward_history_of [] (@CanBusBase_init CB).
Proof. exists []. split; [apply forward_init | reflexivity]. Qed.

Lemma forward_history_of_schedule P b delay_us cb :
  0 <= delay_us ->
  forward_history_of P b -> forward_history_of P (schedule delay_us cb b).
Proof.
  intros Hd (Sc & H & Ht). eexists.
  split; [apply (forward_schedule _ _ _ _ _ H Hd) | exact Ht].
Qed.

Lemma forward_history_of_pop P b e b' :
  forward_history_of P b -> pop_event b = Some (e, b') ->
  forward_history_of (P ++ [e]) (record_history b').
Proof.
  intros (Sc & H & Ht) Hpop. exists Sc. split.
  - apply (forward_frame _ _ b'); [apply (forward_pop _ _ _ _ _ H Hpop)|].
    repeat split.
  - apply pop_event_inv in Hpop as (rest & _ & ->).
    cbn [record_history set_time_us set_events history hist_time time_us].
    rewrite map_app, Ht. reflexivity.
Qed.

Lemma forward_history_of_frame P b b' :
  forward_history_of P b -> same_queue b b' ->
  hist_time (history b') = hist_time (history b) ->
  forward_history_of P b'.
Proof.
  intros (Sc & H & Ht) Hsame Hh. exists Sc.
  split; [apply (forward_frame _ _ _ _ H Hsame) | congruence].
Qed.

Lemma forward_history_of_set_rounds P b r :
  forward_history_of P b -> forward_history_of P (set_rounds r b).
Proof. intros H. apply (forward_history_of_frame _ _ _ H); repeat split. Qed.

Lemma forward_history_of_set_attacker P b n :
  forward_history_of P b -> forward_history_of P (set_attacker n b).
Proof. intros H. apply (forward_history_of_frame _ _ _ H); repeat split. Qed.

Lemma forward_history_of_set_defender P b n :
  forward_history_of P b -> forward_history_of P (set_defender n b).
Proof. intros H. apply (forward_history_of_frame _ _ _ H); repeat split. Qed.

End ForwardHistoryFacts.

Ltac forward_history_steps :=
  repeat match goal with
         | |- forward_history_of _ (if ?c then _ else _) => destruct c
         | |- forward_history_of _ (schedule _ _ _) =>
             apply forward_history_of_schedule;
             [unfold GAP_US, ASSISTANT_GAP_US, ATTACKER_PERIOD_US; lia|]
         | |- forward_history_of _ (set_rounds _ _) =>
             apply forward_history_of_set_rounds
         | |- forward_history_of _ (set_attacker _ _) =>
             apply forward_history_of_set_attacker
         | |- forward_history_of _ (set_defender _ _) =>
             apply forward_history_of_set_defender
         end.

Lemma experiment1_call_forward (max_rounds : Z) P cb (b : Experiment1.CanBus) :
  forward_history_of P b ->
  forward_history_of P (Experiment1.call max_rounds cb b).
Proof.
  intros H.
  destruct cb; cbn [Experiment1.call];
    unfold Experiment1.__start_round, Experiment1.__handle_collision,
      Experiment1.__recover_defender, Experiment1.__recover_attacker;
    cbv zeta; forward_history_steps; exact H.
Qed.

(** The entries popped by the run loop of the two-node scenario are the
    popped entries of a forward history that ends in the bus reached. *)
Lemma experiment1_forward (max_rounds : Z) (n : nat) :
  forward_history_of
    (popped_entries1 max_rounds n Experiment1.execute_start)
    (Experiment1.iterate max_rounds n Experiment1.execute_start).
Proof.
  assert (Hstart : forward_history_of [] Experiment1.execute_start).
  { unfold Experiment1.execute_start, Experiment1.CanBus_init.
    forward_history_steps. apply forward_history_of_init. }
  change (popped_entries1 max_rounds n Experiment1.execute_start)
    with ([] ++ popped_entries1 max_rounds n Experiment1.execute_start).
  revert Hstart. generalize (@nil (Event Experiment1.Callback)).
  generalize Experiment1.execute_start.
  induction n as [|n IH]; intros b P Hb;
    cbn [Experiment1.iterate popped_entries1].
  - rewrite app_nil_r. exact Hb.
  - unfold Experiment1.step.
    destruct (pop_event b) as [[e b1]|] eqn:Hpop.
    + match goal with
      | |- forward_history_of (P ++ e :: ?rest) _ =>
          replace (P ++ e :: rest) with ((P ++ [e]) ++ rest)
            by (rewrite <- app_assoc; reflexivity)
      end.
      apply IH. apply experiment1_call_forward.
      apply (forward_history_of_pop _ _ _ _ Hb Hpop).
    + rewrite app_nil_r. exact Hb.
Qed.

Lemma popped_entries1_callbacks (max_rounds : Z) (n : nat) :
  forall b : Experiment1.CanBus,
    map callback (popped_entries1 max_rounds n b)
      = Experiment1.popped max_rounds n b.
Proof.
  induction n as [|n IH]; intros b; cbn [popped_entries1 Experiment1.popped].
  - reflexivity.
  - destruct (pop_event b) as [[e b1]|]; [|reflexivity].
    destruct (Experiment1.step max_rounds b) as [b'|]; [|reflexivity].
    cbn [map]. rewrite IH. reflexivity.
Qed.

Lemma experiment3_call_forward P cb (self : Experiment3.CanBus) :
  forward_history_of P (Experiment3.base self) ->
  forward_history_of P (Experiment3.base (Experiment3.call cb self)).
Proof.
  intros H.
  destruct cb; cbn [Experiment3.call];
    unfold Experiment3.__send_attack, Experiment3.__handle_collision,
      Experiment3.__recover_defender, Experiment3.__collide_passive,
      Experiment3.__assistant_send;
    cbv zeta;
    repeat match goal with
           | |- forward_history_of _ (Experiment3.base (if ?c then _ else _)) =>
               destruct c
           end;
    cbn [Experiment3.on_base Experiment3.base];
    forward_history_steps; exact H.
Qed.

(** So are the entries popped by the run loop of the three-node scenario. *)
Lemma experiment3_forward (n : nat) :
  forward_history_of
    (popped_entries3 n Experiment3.execute_start)
    (Experiment3.base (Experiment3.iterate n Experiment3.execute_start)).
Proof.
  assert (Hstart :
            forward_history_of [] (Experiment3.base Experiment3.execute_start)).
  { unfold Experiment3.execute_start. cbn [Experiment3.on_base Experiment3.base].
    forward_history_steps. apply forward_history_of_init. }
  change (popped_entries3 n Experiment3.execute_start)
    with ([] ++ popped_entries3 n Experiment3.execute_start).
  revert Hstart. generalize (@nil (Event Experiment3.Callback)).
  generalize Experiment3.execute_start.
  induction n as [|n IH]; intros self P Hb;
    cbn [Experiment3.iterate popped_entries3].
  - rewrite app_nil_r. exact Hb.
  - unfold Experiment3.step.
    destruct (Experiment3.running self).
    + destruct (pop_event (Experiment3.base self)) as [[e b1]|] eqn:Hpop.
      * match goal with
        | |- forward_history_of (P ++ e :: ?rest) _ =>
            replace (P ++ e :: rest) with ((P ++ [e]) ++ rest)
              by (rewrite <- app_assoc; reflexivity)
        end.
        apply IH. apply experiment3_call_forward.
        unfold Experiment3.__record_history.
        cbn [Experiment3.on_base Experiment3.base].
        apply (forward_history_of_pop _ _ _ _ Hb Hpop).
      * rewrite app_nil_r. exact Hb.
    + destruct (pop_event (Experiment3.base self)) as [[e b1]|];
        rewrite app_nil_r; exact Hb.
Qed.

Lemma popped_entries3_callbacks (n : nat) :
  forall self : Experiment3.CanBus,
    map callback (popped_entries3 n self) = Experiment3.popped n self.
Proof.
  induction n as [|n IH]; intros self; cbn [popped_entries3 Experiment3.popped].
  - reflexivity.
  - destruct (pop_event (Experiment3.base self)) as [[e b1]|]; [|reflexivity].
    destruct (Experiment3.step self) as [self'|]; [|reflexivity].
    cbn [map]. rewrite IH. reflexivity.
Qed.

(** X7.  In both scenarios, after any number of iterations (and for every
    round limit in the two-node scenario), the entries popped by the run
    loop, in the order they were popped, are strictly increasing in
    [(fire time, sequence number)]: simultaneous events run in the order
    of their sequence numbers, all others in the order of their times.
    The callbacks of these entries are the callbacks run so far, and
    their fire times are the clock values recorded in the history. *)
Theorem scenario_execution_order (max_rounds : Z) (n : nat) :
  let P1 := popped_entries1 max_rounds n Experiment1.execute_start in
  let P3 := popped_entries3 n Experiment3.execute_start in
  (StronglySorted key_lt P1 /\
   map callback P1
     = Experiment1.popped max_rounds n Experiment1.execute_start /\
   map fire P1
     = hist_time (history
         (Experiment1.iterate max_rounds n Experiment1.execute_start))) /\
  (StronglySorted key_lt P3 /\
   map callback P3 = Experiment3.popped n Experiment3.execute_start /\
   map fire P3
     = hist_time (history (Experiment3.base
         (Experiment3.iterate n Experiment3.execute_start)))).
Proof.
  cbv zeta. split.
  - destruct (experiment1_forward max_rounds n) as (Sc & Hf & Ht).
    split; [apply (forward_order _ _ _ Hf)|].
    split; [apply popped_entries1_callbacks | exact Ht].
  - destruct (experiment3_forward n) as (Sc & Hf & Ht).
    split; [apply (forward_order _ _ _ Hf)|].
    split; [apply popped_entries3_callbacks | exact Ht].
Qed.

(* ===================================================================== *)
(** * Further properties of the two-node scenario *)
(* ===================================================================== *)

Module Experiment1More.
Import Experiment1 Experiment1Runs Experiment1Facts.

Section Rounds.

Variable max_rounds : Z.

Local Abbreviation runs := (runs max_rounds).
Local Abbreviation call := (call max_rounds).
Local Abbreviation step := (step max_rounds).
Local Abbreviation iterate := (iterate max_rounds).
Local Abbreviation popped := (popped max_rounds).

Local Ltac callbacks :=
  unfold __start_round, __handle_collision, __recover_defender,
    __recover_attacker;
  cbv zeta;
  repeat match goal with
         | |- context [if ?c then _ else _] => destruct c
         end.

(** No callback touches the clock or the history. *)
Lemma call_time_history cb (b : CanBus) :
  time_us (call cb b) = time_us b /\ history (call cb b) = history b.
Proof. destruct cb; cbn [Experiment1.call]; callbacks; split; reflexivity. Qed.

Lemma call_rounds cb (b : CanBus) :
  rounds (call cb b) = rounds b + (if is_round_start cb then 1 else 0).
Proof.
  destruct cb; cbn [Experiment1.call is_round_start]; callbacks;
    cbn [schedule set_rounds set_attacker set_defender rounds]; lia.
Qed.

Lemma step_inv (b b' : CanBus) :
  step b = Some b' ->
  exists e b1, pop_event b = Some (e, b1) /\
               b' = call (callback e) (record_history b1).
Proof.
  unfold Experiment1.step. intros H.
  destruct (pop_event b) as [[e b1]|]; [|discriminate].
  inversion H; subst. eexists _, _. split; reflexivity.
Qed.

(** *** Lengths of the history lists *)

Lemma step_history_lengths (b b' : CanBus) :
  step b = Some b' ->
  length (hist_time (history b')) = S (length (hist_time (history b))) /\
  length (hist_attacker (history b')) = S (length (hist_attacker (history b))) /\
  length (hist_defender (history b')) = S (length (hist_defender (history b))).
Proof.
  intros H. apply step_inv in H as (e & b1 & Hpop & ->).
  apply pop_event_inv in Hpop as (rest & _ & ->).
  rewrite (proj2 (call_time_history _ _)).
  cbn [record_history set_time_us set_events history
       hist_time hist_attacker hist_defender].
  rewrite !length_app. cbn [length]. lia.
Qed.

Lemma iterate_history_lengths n : forall b : CanBus,
  length (hist_time (history (iterate n b)))
    = (length (hist_time (history b)) + length (popped n b))%nat /\
  length (hist_attacker (history (iterate n b)))
    = (length (hist_attacker (history b)) + length (popped n b))%nat /\
  length (hist_defender (history (iterate n b)))
    = (length (hist_defender (history b)) + length (popped n b))%nat.
Proof.
  induction n as [|n IH]; intros b;
    cbn [Experiment1.iterate Experiment1.popped].
  - cbn [length]. lia.
  - destruct (step b) as [b'|] eqn:Hstep.
    + destruct (step_inv _ _ Hstep) as (e & b1 & Hpop & _). rewrite Hpop.
      destruct (step_history_lengths _ _ Hstep) as (H1 & H2 & H3).
      destruct (IH b') as (I1 & I2 & I3).
      cbn [length]. lia.
    + destruct (pop_event b) as [[e b1]|]; cbn [length]; lia.
Qed.

(** *** The round counter *)

Lemma iterate_rounds n : forall b : CanBus,
  rounds (iterate n b)
    = rounds b + Z.of_nat (length (filter is_round_start (popped n b))).
Proof.
  induction n as [|n IH]; intros b;
    cbn [Experiment1.iterate Experiment1.popped].
  - cbn. lia.
  - destruct (step b) as [b'|] eqn:Hstep.
    + destruct (step_inv _ _ Hstep) as (e & b1 & Hpop & ->). rewrite Hpop.
      rewrite IH, call_rounds.
      apply pop_event_inv in Hpop as (rest & _ & ->).
      cbn [record_history set_time_us set_events rounds filter].
      destruct (is_round_start (callback e)); cbn [length]; lia.
    + destruct (pop_event b) as [[e b1]|]; cbn; lia.
Qed.

(** *** Fire times along a run *)

Lemma step_fire (b b' : CanBus) t c cb :
  events b = [(t, c, cb)] ->
  step b = Some b' ->
  time_us b' = t /\
  (events b' = [] \/
   exists c' cb', events b' = [(t + follow_up_delay cb, c', cb')]).
Proof.
  intros Hev Hstep. unfold Experiment1.step in Hstep.
  rewrite (pop_event_single _ _ _ _ Hev) in Hstep. inversion Hstep; subst b'.
  cbn [callback snd].
  set (b0 := record_history (set_time_us t (set_events [] b))).
  assert (Hev0 : events b0 = []) by reflexivity.
  assert (Ht0 : time_us b0 = t) by reflexivity.
  clearbody b0.
  split; [rewrite (proj1 (call_time_history _ _)); exact Ht0|].
  destruct cb; cbn [Experiment1.call follow_up_delay].
  - rewrite (proj2 (proj2 (proj2 (start_round_spec max_rounds b0)))), Hev0, Ht0.
    destruct (rounds b0 + 1 >? max_rounds); [left; reflexivity|].
    right. eexists _, _. reflexivity.
  - rewrite (proj2 (proj2 (proj2 (handle_collision_spec b0)))), Hev0, Ht0.
    right. eexists _, _. reflexivity.
  - rewrite (proj2 (proj2 (proj2 (recover_defender_spec b0)))), Hev0, Ht0.
    right. eexists _, _. reflexivity.
  - rewrite (proj2 (proj2 (proj2 (recover_attacker_spec b0)))), Hev0, Ht0.
    right. eexists _, _. reflexivity.
Qed.

Lemma runs_head (b b' : CanBus) t c cb x tr :
  events b = [(t, c, cb)] -> runs b (x :: tr) b' -> x = cb.
Proof.
  intros Hev H. inversion H as [|? e b1 ? ? Hpop _]; subst.
  rewrite (pop_event_single _ _ _ _ Hev) in Hpop. inversion Hpop; subst.
  reflexivity.
Qed.

Lemma runs_clock tr : forall (b b' : CanBus) t c cb last,
  events b = [(t, c, cb)] ->
  runs b (tr ++ [last]) b' ->
  time_us b' = t + sum_delays tr.
Proof.
  induction tr as [|x tr IH]; intros b b' t c cb last Hev Hrun; cbn [app] in Hrun.
  - apply runs_one in Hrun.
    destruct (step_fire _ _ _ _ _ Hev Hrun) as [Ht _]. cbn. lia.
  - pose proof (runs_head _ _ _ _ _ _ _ Hev Hrun) as ->.
    apply runs_step in Hrun as (b2 & Hstep & Hrest).
    destruct (step_fire _ _ _ _ _ Hev Hstep) as [_ [Hnil | (c' & cb' & Hev')]].
    + exfalso. destruct tr; cbn [app] in Hrest;
        apply runs_step in Hrest as (b3 & Hstep3 & _);
        unfold Experiment1.step, pop_event in Hstep3;
        rewrite Hnil in Hstep3; discriminate.
    + rewrite (IH _ _ _ _ _ _ Hev' Hrest). unfold sum_delays. cbn [fold_right]. lia.
Qed.

Lemma sum_delays_app tr1 tr2 :
  sum_delays (tr1 ++ tr2) = sum_delays tr1 + sum_delays tr2.
Proof.
  unfold sum_delays. induction tr1 as [|x tr1 IH]; cbn [app fold_right].
  - reflexivity.
  - rewrite IH. lia.
Qed.

Lemma sum_delays_later_rounds (k : nat) :
  sum_delays (concat (repeat later_round k)) = 527 * Z.of_nat k.
Proof.
  induction k as [|k IH].
  - reflexivity.
  - cbn [repeat concat]. rewrite sum_delays_app, IH.
    change (sum_delays later_round) with 527. lia.
Qed.

End Rounds.

End Experiment1More.

(** X8.  In the two-node scenario, for every round limit and after any
    number of iterations, the three lists of the history (times, attacker
    counters, defender counters) have the same length, the number of
    callbacks run so far: each iteration records exactly one sample. *)
Theorem history_lengths_agree (max_rounds : Z) (n : nat) :
  let b := Experiment1.iterate max_rounds n Experiment1.execute_start in
  let k := length (Experiment1.popped max_rounds n Experiment1.execute_start) in
  length (hist_time (history b)) = k /\
  length (hist_attacker (history b)) = k /\
  length (hist_defender (history b)) = k.
Proof.
  cbv zeta.
  destruct (Experiment1More.iterate_history_lengths max_rounds n
              Experiment1.execute_start) as (H1 & H2 & H3).
  rewrite H1, H2, H3. repeat split.
Qed.

(** X9.  In the two-node scenario the round counter is the number of
    round-start callbacks run so far, for every round limit and after any
    number of iterations. *)
Theorem rounds_count_round_starts (max_rounds : Z) (n : nat) :
  rounds (Experiment1.iterate max_rounds n Experiment1.execute_start)
  = Z.of_nat (length (filter is_round_start
       (Experiment1.popped max_rounds n Experiment1.execute_start))).
Proof.
  rewrite Experiment1More.iterate_rounds. reflexivity.
Qed.

(** X10.  In the two-node scenario at most one entry is ever pending, for
    every round limit and after any number of iterations: every callback
    schedules at most one follow-up. *)
Theorem single_pending_entry (max_rounds : Z) (n : nat) :
  (length (events (Experiment1.iterate max_rounds n Experiment1.execute_start))
   <= 1)%nat.
Proof.
  destruct (Experiment1Facts.round_inv_iterate max_rounds n _
              (Experiment1Facts.round_inv_execute_start))
    as (_ & _ & Hphase).
  destruct (events (Experiment1.iterate max_rounds n Experiment1.execute_start))
    as [|e [|e' evs]]; cbn [length]; [lia | lia | destruct Hphase].
Qed.

(** X11.  With a round limit of 0 or less the two-node scenario plays no
    round: the loop runs the first round start only, which schedules
    nothing, and ends with the round counter at 1 and both nodes at
    counter 0, ACTIVE. *)
Theorem no_round_when_limit_not_positive (max_rounds : Z) :
  max_rounds <= 0 ->
  exists final,
    Experiment1.execute max_rounds 1 = Some final /\
    (forall k,
       Experiment1.popped max_rounds (1 + k) Experiment1.execute_start
         = [Experiment1.StartRound]) /\
    rounds final = 1 /\
    TEC (attacker final) = 0 /\ TEC (defender final) = 0 /\
    state (attacker final) = ACTIVE /\ state (defender final) = ACTIVE.
Proof.
  intros Hn.
  destruct (Experiment1Facts.round_start_stop max_rounds _ _ _ _
              Experiment1Facts.pending_execute_start)
    as (final & Hrun & Hev & Hr & Ha & Hd & Hta & Htd); [lia|].
  exists final.
  assert (Hit : forall k,
             Experiment1.iterate max_rounds (1 + k) Experiment1.execute_start
               = final /\
             Experiment1.popped max_rounds (1 + k) Experiment1.execute_start
               = [Experiment1.StartRound]).
  { intros k.
    destruct (Experiment1Facts.runs_iterate _ _ _ _ Hrun k) as [H1 H2].
    destruct (Experiment1Facts.halted_iterate max_rounds _ k Hev) as [H3 H4].
    cbn [length] in H1, H2. rewrite H1, H2, H3, H4. split; reflexivity. }
  split; [|split; [|split; [|split; [|split; [|split]]]]].
  - unfold Experiment1.execute.
    pose proof (proj1 (Hit 0%nat)) as H0. change (1 + 0)%nat with 1%nat in H0.
    rewrite H0, Hev. reflexivity.
  - intros k. apply Hit.
  - exact Hr.
  - exact Ha.
  - exact Hd.
  - apply in_table_active; [exact Hta | lia].
  - apply in_table_active; [exact Htd | lia].
Qed.

Lemma no_round_when_limit_not_positive_witness :
  exists final,
    Experiment1.execute 0 1 = Some final /\
    (forall k,
       Experiment1.popped 0 (1 + k) Experiment1.execute_start
         = [Experiment1.StartRound]) /\
    rounds final = 1 /\
    TEC (attacker final) = 0 /\ TEC (defender final) = 0 /\
    state (attacker final) = ACTIVE /\ state (defender final) = ACTIVE.
Proof.
  apply (no_round_when_limit_not_positive 0). lia.
Defined.

(** X12.  For every round limit [N] of at least 1, the two-node scenario
    ends with the clock at [558 + 527 * (N - 1)] microseconds (18 gaps of
    31 in the first round, 17 in every later one) and with the insertion
    counter at [18 * N + 2]: every entry scheduled has been popped. *)
Theorem run_time_span (max_rounds : Z) :
  1 <= max_rounds ->
  exists final,
    Experiment1.execute max_rounds (Z.to_nat (18 * max_rounds + 2))
      = Some final /\
    time_us final = 558 + 527 * (max_rounds - 1) /\
    counter final = 18 * max_rounds + 2.
Proof.
  intros Hn.
  destruct (Experiment1Facts.full_run max_rounds Hn)
    as (final & Hrun & Hev & _).
  pose proof (Experiment1Facts.full_run_length max_rounds Hn) as Hlen.
  set (tr := Experiment1Runs.first_round ++
             concat (repeat Experiment1Runs.later_round
                       (Z.to_nat (max_rounds - 1))) ++
             [Experiment1.StartRound]) in *.
  assert (Hfuel : Z.to_nat (18 * max_rounds + 2) = length tr) by lia.
  destruct (Experiment1Facts.runs_iterate _ _ _ _ Hrun 0) as [Hit Hpo].
  rewrite Nat.add_0_r in Hit, Hpo. cbn [Experiment1.iterate] in Hit.
  cbn [Experiment1.popped] in Hpo. rewrite app_nil_r in Hpo.
  exists final. split; [|split].
  - unfold Experiment1.execute. rewrite Hfuel, Hit, Hev. reflexivity.
  - unfold tr in Hrun. rewrite app_assoc in Hrun.
    rewrite (Experiment1More.runs_clock max_rounds _
               Experiment1.execute_start _ 0 0
               Experiment1.StartRound _ eq_refl Hrun).
    rewrite Experiment1More.sum_delays_app,
      Experiment1More.sum_delays_later_rounds.
    change (sum_delays Experiment1Runs.first_round) with 558. lia.
  - destruct (experiment1_history max_rounds (length tr))
      as (Sc & P & Hr & Htr).
    rewrite Hit in Hr. rewrite Hpo in Htr.
    destruct (reach_bookkeeping _ _ _ Hr) as (_ & Hc & Hp).
    rewrite Hev, app_nil_r in Hp. apply Permutation_length in Hp.
    apply (f_equal (@length _)) in Htr. rewrite length_map in Htr.
    lia.
Qed.

Lemma run_time_span_witness :
  exists final,
    Experiment1.execute MAX_ROUNDS 56 = Some final /\
    time_us final = 1612 /\
    counter final = 56.
Proof.
  apply (run_time_span MAX_ROUNDS). unfold MAX_ROUNDS. lia.
Defined.

(* ===================================================================== *)
(** * Further properties of the three-node scenario *)
(* ===================================================================== *)

Module Experiment3More.
Import Experiment3.

Local Ltac callbacks :=
  unfold __send_attack, __handle_collision, __recover_defender,
    __collide_passive, __assistant_send;
  cbv zeta;
  repeat match goal with
         | |- context [if ?c then _ else _] => destruct c
         end;
  cbn [on_base base assistant hist_assistant schedule set_attacker
       set_defender attacker defender history].

Lemma step_inv3 (self self' : CanBus) :
  step self = Some self' ->
  exists e b1,
    pop_event (base self) = Some (e, b1) /\
    self' = call (callback e)
              (__record_history
                 {| base := b1; assistant := assistant self;
                    hist_assistant := hist_assistant self |}).
Proof.
  unfold step. intros H.
  destruct (running self); [|discriminate].
  destruct (pop_event (base self)) as [[e b1]|]; [|discriminate].
  inversion H; subst. eexists _, _. split; reflexivity.
Qed.

(** No callback touches the assistant or any list of the history. *)
Lemma call_assistant_history cb (self : CanBus) :
  assistant (call cb self) = assistant self /\
  hist_assistant (call cb self) = hist_assistant self /\
  history (base (call cb self)) = history (base self).
Proof. destruct cb; cbn [call]; callbacks; repeat split. Qed.

Lemma succeed_TEC_bounds n : TEC n - 1 <= TEC (succeed n) <= TEC n.
Proof.
  destruct (Z.lt_ge_cases 0 (TEC n)).
  - rewrite succeed_TEC_pos by assumption. lia.
  - rewrite succeed_TEC_nonpos by lia. lia.
Qed.

Lemma call_counters cb (self : CanBus) :
  TEC (attacker (base self)) <= TEC (attacker (base (call cb self)))
    <= TEC (attacker (base self)) + 8 /\
  TEC (defender (base self)) - 1 <= TEC (defender (base (call cb self)))
    <= TEC (defender (base self)) + 8.
Proof.
  pose proof (succeed_TEC_bounds (defender (base self))) as Hs.
  destruct cb; cbn [call]; callbacks; rewrite ?collide_TEC; lia.
Qed.

Lemma call_in_table cb (self : CanBus) :
  in_table (attacker (base self)) ->
  in_table (defender (base self)) ->
  in_table (attacker (base (call cb self))) /\
  in_table (defender (base (call cb self))).
Proof.
  intros Ha Hd.
  destruct cb; cbn [call]; callbacks;
    split; try assumption; try apply collide_in_table; apply succeed_in_table.
Qed.

Lemma step_snapshot (self self' : CanBus) :
  step self = Some self' ->
  assistant self' = assistant self /\
  hist_assistant self' = hist_assistant self ++ [TEC (assistant self)] /\
  hist_attacker (history (base self'))
    = hist_attacker (history (base self)) ++ [TEC (attacker (base self))] /\
  hist_defender (history (base self'))
    = hist_defender (history (base self)) ++ [TEC (defender (base self))] /\
  length (hist_time (history (base self')))
    = S (length (hist_time (history (base self)))).
Proof.
  intros H. apply step_inv3 in H as (e & b1 & Hpop & ->).
  apply pop_event_inv in Hpop as (rest & _ & ->).
  destruct (call_assistant_history (callback e)
              (__record_history
                 {| base := set_time_us (fire e) (set_events rest (base self));
                    assistant := assistant self;
                    hist_assistant := hist_assistant self |}))
    as (H1 & H2 & H3).
  rewrite H1, H2, H3.
  unfold __record_history.
  cbn [on_base base assistant hist_assistant record_history set_time_us
       set_events history hist_time hist_attacker hist_defender attacker
       defender].
  repeat split. rewrite length_app. cbn [length]. lia.
Qed.

Lemma step_counters (self self' : CanBus) :
  step self = Some self' ->
  TEC (attacker (base self)) <= TEC (attacker (base self'))
    <= TEC (attacker (base self)) + 8 /\
  TEC (defender (base self)) - 1 <= TEC (defender (base self'))
    <= TEC (defender (base self)) + 8.
Proof.
  intros H. apply step_inv3 in H as (e & b1 & Hpop & ->).
  apply pop_event_inv in Hpop as (rest & _ & ->).
  apply (call_counters (callback e)
           (__record_history
              {| base := set_time_us (fire e) (set_events rest (base self));
                 assistant := assistant self;
                 hist_assistant := hist_assistant self |})).
Qed.

(** Each callback leaves the attacker as it is or makes it collide once,
    and leaves the defender as it is or makes it collide or succeed once. *)
Lemma call_nodes cb (self : CanBus) :
  (attacker (base (call cb self)) = attacker (base self) \/
   attacker (base (call cb self)) = collide (attacker (base self))) /\
  (defender (base (call cb self)) = defender (base self) \/
   defender (base (call cb self)) = collide (defender (base self)) \/
   defender (base (call cb self)) = succeed (defender (base self))).
Proof.
  destruct cb; cbn [call]; callbacks; split; auto.
Qed.

Lemma step_nodes (self self' : CanBus) :
  step self = Some self' ->
  (attacker (base self') = attacker (base self) \/
   attacker (base self') = collide (attacker (base self))) /\
  (defender (base self') = defender (base self) \/
   defender (base self') = collide (defender (base self)) \/
   defender (base self') = succeed (defender (base self))).
Proof.
  intros H. apply step_inv3 in H as (e & b1 & Hpop & ->).
  apply pop_event_inv in Hpop as (rest & _ & ->).
  apply (call_nodes (callback e)
           (__record_history
              {| base := set_time_us (fire e) (set_events rest (base self));
                 assistant := assistant self;
                 hist_assistant := hist_assistant self |})).
Qed.

Lemma step_in_table (self self' : CanBus) :
  step self = Some self' ->
  in_table (attacker (base self)) ->
  in_table (defender (base self)) ->
  in_table (attacker (base self')) /\ in_table (defender (base self')).
Proof.
  intros H Ha Hd. apply step_inv3 in H as (e & b1 & Hpop & ->).
  apply pop_event_inv in Hpop as (rest & _ & ->).
  apply call_in_table; assumption.
Qed.

Lemma popped_step (n : nat) (self self' : CanBus) :
  step self = Some self' ->
  length (popped (S n) self) = S (length (popped n self')).
Proof.
  intros H. cbn [popped]. rewrite H.
  apply step_inv3 in H as (e & b1 & Hpop & _). rewrite Hpop. reflexivity.
Qed.

Lemma popped_halted (n : nat) (self : CanBus) :
  step self = None -> popped n self = [].
Proof. intros H. apply (Experiment3Facts.halted_iterate3 self n H). Qed.

(** What holds along the iterations, from any bus. *)
Lemma iterate_snapshots n : forall self : CanBus,
  let k := length (popped n self) in
  assistant (iterate n self) = assistant self /\
  hist_assistant (iterate n self)
    = hist_assistant self ++ repeat (TEC (assistant self)) k /\
  length (hist_time (history (base (iterate n self))))
    = (length (hist_time (history (base self))) + k)%nat /\
  length (hist_attacker (history (base (iterate n self))))
    = (length (hist_attacker (history (base self))) + k)%nat /\
  length (hist_defender (history (base (iterate n self))))
    = (length (hist_defender (history (base self))) + k)%nat.
Proof.
  induction n as [|n IH]; intros self; cbv zeta.
  - cbn [iterate popped length repeat]. rewrite app_nil_r.
    repeat split; lia.
  - cbn [iterate]. destruct (step self) as [self'|] eqn:Hstep.
    + rewrite (popped_step _ _ _ Hstep).
      destruct (step_snapshot _ _ Hstep) as (H1 & H2 & H3 & H4 & H5).
      destruct (IH self') as (I1 & I2 & I3 & I4 & I5).
      rewrite I1, I2, I3, I4, I5, H1, H2, H3, H4, H5.
      rewrite !length_app. cbn [length repeat].
      rewrite <- app_assoc. cbn [app].
      repeat split; lia.
    + rewrite (popped_halted _ _ Hstep). cbn [length repeat].
      rewrite app_nil_r. repeat split; lia.
Qed.

Lemma iterate_attacker_sorted n : forall self : CanBus,
  Sorted Z.le (hist_attacker (history (base self))) ->
  Forall (fun x => x <= TEC (attacker (base self)))
    (hist_attacker (history (base self))) ->
  Sorted Z.le (hist_attacker (history (base (iterate n self)))).
Proof.
  induction n as [|n IH]; intros self Hs Hall; cbn [iterate]; [exact Hs|].
  destruct (step self) as [self'|] eqn:Hstep; [|exact Hs].
  destruct (step_snapshot _ _ Hstep) as (_ & _ & Ha & _).
  destruct (step_counters _ _ Hstep) as [Hup _].
  apply IH; rewrite Ha.
  - apply Sorted_snoc; assumption.
  - apply Forall_app. split.
    + revert Hall. apply Forall_impl. intros x Hx. lia.
    + repeat constructor. lia.
Qed.

Lemma iterate_in_table n : forall self : CanBus,
  in_table (attacker (base self)) ->
  in_table (defender (base self)) ->
  in_table (attacker (base (iterate n self))) /\
  in_table (defender (base (iterate n self))).
Proof.
  induction n as [|n IH]; intros self Ha Hd; cbn [iterate]; [split; assumption|].
  destruct (step self) as [self'|] eqn:Hstep; [|split; assumption].
  destruct (step_in_table _ _ Hstep Ha Hd) as [Ha' Hd'].
  apply IH; assumption.
Qed.

Lemma CanNode_init_in_table nm : in_table (CanNode_init nm).
Proof.
  unfold in_table. cbn [CanNode_init TEC state].
  split; [|split]; split; intros; try lia; try discriminate; reflexivity.
Qed.

End Experiment3More.

(** X13.  In both scenarios, for every round limit and after any number of
    iterations, the stored state of every node agrees with its error
    counter (BUS_OFF from 256, ERROR_PASSIVE from 128, ACTIVE below). *)
Theorem nodes_stay_consistent (max_rounds : Z) (n : nat) :
  let b1 := Experiment1.iterate max_rounds n Experiment1.execute_start in
  let b3 := Experiment3.iterate n Experiment3.execute_start in
  (in_table (attacker b1) /\ in_table (defender b1)) /\
  (in_table (attacker (Experiment3.base b3)) /\
   in_table (defender (Experiment3.base b3)) /\
   in_table (Experiment3.assistant b3)).
Proof.
  cbv zeta. split.
  - destruct (Experiment1Facts.round_inv_iterate max_rounds n _
                (Experiment1Facts.round_inv_execute_start))
      as (Ha & Hd & _).
    split; assumption.
  - destruct (Experiment3More.iterate_in_table n Experiment3.execute_start)
      as [Ha Hd]; try apply Experiment3More.CanNode_init_in_table.
    split; [exact Ha|]. split; [exact Hd|].
    rewrite (proj1 (Experiment3More.iterate_snapshots n _)).
    apply Experiment3More.CanNode_init_in_table.
Qed.

(** X14.  The three-node scenario never changes the assistant node: an
    iteration of the loop, from any bus, leaves it as it was and records
    its counter, so along the run the assistant stays a fresh node and
    every sample recorded for it is 0. *)
Theorem assistant_never_touched (n : nat) :
  (forall self self',
     Experiment3.step self = Some self' ->
     Experiment3.assistant self' = Experiment3.assistant self /\
     Experiment3.hist_assistant self'
       = Experiment3.hist_assistant self
           ++ [TEC (Experiment3.assistant self)]) /\
  Experiment3.assistant (Experiment3.iterate n Experiment3.execute_start)
    = CanNode_init "[C] ASSISTANT" /\
  Experiment3.hist_assistant (Experiment3.iterate n Experiment3.execute_start)
    = repeat 0
        (length (Experiment3.popped n Experiment3.execute_start)).
Proof.
  split; [|split].
  - intros self self' Hstep.
    destruct (Experiment3More.step_snapshot _ _ Hstep) as (H1 & H2 & _).
    split; assumption.
  - apply (Experiment3More.iterate_snapshots n Experiment3.execute_start).
  - destruct (Experiment3More.iterate_snapshots n Experiment3.execute_start)
      as (_ & H & _).
    exact H.
Qed.

Lemma assistant_never_touched_witness :
  Experiment3.assistant
    (Experiment3.call Experiment3.SendAttack
       (Experiment3.__record_history
          {| Experiment3.base :=
               set_time_us 0
                 (set_events [(0, 1, Experiment3.AssistantSend)]
                    (Experiment3.base Experiment3.execute_start));
             Experiment3.assistant :=
               Experiment3.assistant Experiment3.execute_start;
             Experiment3.hist_assistant :=
               Experiment3.hist_assistant Experiment3.execute_start |}))
  = Experiment3.assistant Experiment3.execute_start.
Proof.
  apply (proj1 (assistant_never_touched 0) Experiment3.execute_start).
  reflexivity.
Defined.

(** X15.  In the three-node scenario the attacker's error counter never
    goes down: an iteration of the loop, from any bus, either leaves the
    attacker as it is or makes it collide once, so its counter is unchanged
    or exactly 8 higher; it leaves the defender as it is or makes it
    collide or succeed once, so the defender's counter is unchanged, 8
    higher, or 1 lower (when it was positive).  So the attacker samples
    recorded along the run are in non-decreasing order. *)
Theorem attacker_counter_never_decreases (n : nat) :
  (forall self self',
     Experiment3.step self = Some self' ->
     let a := attacker (Experiment3.base self) in
     let a' := attacker (Experiment3.base self') in
     let d := defender (Experiment3.base self) in
     let d' := defender (Experiment3.base self') in
     (a' = a \/ a' = collide a) /\
     (TEC a' = TEC a \/ TEC a' = TEC a + 8) /\
     (d' = d \/ d' = collide d \/ d' = succeed d) /\
     (TEC d' = TEC d \/ TEC d' = TEC d + 8 \/
      (0 < TEC d /\ TEC d' = TEC d - 1))) /\
  Sorted Z.le
    (hist_attacker (history (Experiment3.base
       (Experiment3.iterate n Experiment3.execute_start)))).
Proof.
  split.
  - intros self self' Hstep. cbv zeta.
    destruct (Experiment3More.step_nodes _ _ Hstep) as [Ha Hd].
    split; [exact Ha|]. split; [|split; [exact Hd|]].
    + destruct Ha as [-> | ->]; [left; reflexivity|].
      right. apply collide_TEC.
    + destruct Hd as [-> | [-> | ->]].
      * left. reflexivity.
      * right. left. apply collide_TEC.
      * destruct (Z.lt_ge_cases 0 (TEC (defender (Experiment3.base self))))
          as [Hpos|Hzero].
        -- right. right. split; [exact Hpos|]. apply succeed_TEC_pos, Hpos.
        -- left. apply succeed_TEC_nonpos. lia.
  - apply Experiment3More.iterate_attacker_sorted; constructor.
Qed.

Lemma attacker_counter_never_decreases_witness :
  let a := attacker (Experiment3.base
             (Experiment3.iterate 2 Experiment3.execute_start)) in
  let a' := attacker (Experiment3.base
              (Experiment3.iterate 3 Experiment3.execute_start)) in
  TEC a' = TEC a \/ TEC a' = TEC a + 8.
Proof.
  assert (Hstep : Experiment3.step
                    (Experiment3.iterate 2 Experiment3.execute_start)
                  = Some (Experiment3.iterate 3 Experiment3.execute_start))
    by (vm_compute; reflexivity).
  exact (proj1 (proj2
    (proj1 (attacker_counter_never_decreases 0) _ _ Hstep))).
Defined.

(** X16.  In the three-node scenario, after any number of iterations, the
    four lists of the history (times, attacker, defender and assistant
    counters) have the same length, the number of callbacks run so far. *)
Theorem history_lengths_agree3 (n : nat) :
  let self := Experiment3.iterate n Experiment3.execute_start in
  let k := length (Experiment3.popped n Experiment3.execute_start) in
  length (hist_time (history (Experiment3.base self))) = k /\
  length (hist_attacker (history (Experiment3.base self))) = k /\
  length (hist_defender (history (Experiment3.base self))) = k /\
  length (Experiment3.hist_assistant self) = k.
Proof.
  cbv zeta.
  destruct (Experiment3More.iterate_snapshots n Experiment3.execute_start)
    as (_ & H0 & H1 & H2 & H3).
  rewrite H0, H1, H2, H3, length_app, repeat_length. repeat split.
Qed.

Lemma experiment3_step_running (self self' : Experiment3.CanBus) :
  Experiment3.step self = Some self' ->
  state (attacker (Experiment3.base self)) <> BUS_OFF.
Proof.
  unfold Experiment3.step, Experiment3.running. intros H Hoff.
  rewrite Hoff in H. destruct (events (Experiment3.base self)); discriminate.
Qed.

Lemma experiment3_recorded_below_bus_off n : forall self : Experiment3.CanBus,
  in_table (attacker (Experiment3.base self)) ->
  in_table (defender (Experiment3.base self)) ->
  Forall (fun x => x < 256)
    (hist_attacker (history (Experiment3.base self))) ->
  Forall (fun x => x < 256)
    (hist_attacker (history (Experiment3.base (Experiment3.iterate n self)))).
Proof.
  induction n as [|n IH]; intros self Ha Hd Hall;
    cbn [Experiment3.iterate]; [exact Hall|].
  destruct (Experiment3.step self) as [self'|] eqn:Hstep; [|exact Hall].
  destruct (Experiment3More.step_in_table _ _ Hstep Ha Hd) as [Ha' Hd'].
  destruct (Experiment3More.step_snapshot _ _ Hstep) as (_ & _ & Hrec & _).
  pose proof (experiment3_step_running _ _ Hstep) as Hrun.
  apply IH; try assumption.
  rewrite Hrec. apply Forall_app. split; [exact Hall|].
  repeat constructor.
  destruct (Z.lt_ge_cases (TEC (attacker (Experiment3.base self))) 256)
    as [Hlt|Hge]; [exact Hlt|].
  exfalso. apply Hrun. apply (proj1 Ha). exact Hge.
Qed.

(** X17.  The history of the three-node scenario never shows the attacker
    in BUS_OFF: the counters are recorded before the popped callback runs
    and the loop does not iterate once the attacker is in BUS_OFF, so every
    attacker sample recorded along the run is below 256. *)
Theorem bus_off_never_recorded (n : nat) :
  Forall (fun x => x < 256)
    (hist_attacker (history (Experiment3.base
       (Experiment3.iterate n Experiment3.execute_start)))).
Proof.
  apply experiment3_recorded_below_bus_off;
    try apply Experiment3More.CanNode_init_in_table.
  constructor.
Qed.
